(** * her2k and gelqf: a shallow embedding of the two tlapack kernels

    [include/blas/her2k.hpp] is embedded as a function on flat arrays
    addressed through the leading-dimension macros of the source;
    [include/lapack/gelqf.hpp] as a fuelled panel loop over an abstract
    store whose reflector primitives are parameters. *)

From Stdlib Require Import ZArith Lia.
From Stdlib Require PrimFloat Uint63.
From stdpp Require Import base list.

(** ** Scalars

    her2k is a template over the element types TA, TB, TC; [scalar_t] is
    their common scalar type and [real_type] its real type.  The
    embedding takes one real type [R] as a parameter, with the operations
    the kernel uses on it, and lets A, B, C and alpha all be complex
    numbers over [R].  The few laws the proofs rely on are a class of
    their own: a theorem asks for them only when its proof uses one. *)

Class RealOps (R : Type) := {
  rlit : Z -> R;                (* a literal: 0.0, 1.0, 2 *)
  radd : R -> R -> R;
  rsub : R -> R -> R;
  rmul : R -> R -> R;
  ropp : R -> R;
  reqb : R -> R -> bool         (* operator== *)
}.

Class RealLaws (R : Type) `{RealOps R} : Prop := {
  reqb_eq : forall x y : R, reqb x y = true <-> x = y;
  rlit_1_0 : rlit 1 <> rlit 0;
  ropp_0 : ropp (rlit 0) = rlit 0;
  ropp_ropp : forall x : R, ropp (ropp x) = x
}.

(** [std::complex] over the real type.  The mixed operations below are
    those of the standard library: scaling by a real multiplies both
    components, adding a real moves the real component only, and a real
    compares equal to a complex with that real part and a zero imaginary
    part. *)
Record complex (R : Type) := Cplx { re : R; im : R }.
Arguments Cplx {R} _ _.
Arguments re {R} _.
Arguments im {R} _.

Section Scalar.
Context {R : Type} `{RealOps R}.

Definition r0 : R := rlit 0.
Definition r1 : R := rlit 1.

(** conversion of a real value to the complex element type *)
Definition of_real (x : R) : complex R := Cplx x r0.

(** [const scalar_t zero( 0.0 )] and [one( 1.0 )] *)
Definition zero : complex R := of_real (rlit 0).
Definition one : complex R := of_real (rlit 1).

Definition conj (z : complex R) : complex R := Cplx (re z) (ropp (im z)).
Definition real (z : complex R) : R := re z.

Definition cadd (x y : complex R) : complex R :=
  Cplx (radd (re x) (re y)) (radd (im x) (im y)).

Definition cmul (x y : complex R) : complex R :=
  Cplx (rsub (rmul (re x) (re y)) (rmul (im x) (im y)))
       (radd (rmul (re x) (im y)) (rmul (im x) (re y))).

(** [z *= b] and [b * z] for a real [b]: both components are scaled *)
Definition cscale (b : R) (z : complex R) : complex R :=
  Cplx (rmul (re z) b) (rmul (im z) b).

(** [z += x] for a real [x]: only the real component moves *)
Definition cadd_real (z : complex R) (x : R) : complex R :=
  Cplx (radd (re z) x) (im z).

(** [x == y] on complex numbers *)
Definition ceqb (x y : complex R) : bool :=
  reqb (re x) (re y) && reqb (im x) (im y).

(** [x == z] for a real [x] and a complex [z] *)
Definition rceqb (x : R) (z : complex R) : bool :=
  reqb x (re z) && reqb r0 (im z).
End Scalar.

(** ** Loops

    [for (size_t i = lo; i < hi; ++i) body] with bounds that the body does
    not change. *)
Definition for_range {S : Type} (lo hi : nat) (body : nat -> S -> S) (s : S) : S :=
  fold_left (fun acc i => body i acc) (seq lo (hi - lo)) s.

(** ** Enumerations

    Modelled from the spec: the enumerations [Layout], [Uplo] and [Op] of
    blas/utils.hpp, which is not among the sources: row-major or
    column-major storage; the Lower, Upper or General triangle; NoTrans,
    ConjTrans and the alias Trans that her2k no longer accepts. *)
Inductive Layout := ColMajor | RowMajor.
Inductive Uplo := Upper | Lower | General.
Inductive Op := NoTrans | Trans | ConjTrans.

Definition Layout_eqb (a b : Layout) : bool :=
  match a, b with ColMajor, ColMajor | RowMajor, RowMajor => true | _, _ => false end.
Definition Uplo_eqb (a b : Uplo) : bool :=
  match a, b with
  | Upper, Upper | Lower, Lower | General, General => true
  | _, _ => false
  end.
Definition Op_eqb (a b : Op) : bool :=
  match a, b with
  | NoTrans, NoTrans | Trans, Trans | ConjTrans, ConjTrans => true
  | _, _ => false
  end.

(** ** her2k *)
Module Her2k.
Section Kernel.
Context {R : Type} `{RealOps R}.

Local Abbreviation scalar_t := (complex R).
Local Abbreviation array := (list (complex R)).

(** The macros [A(i_, j_)], [B(i_, j_)], [C(i_, j_)]: element
    [(i_) + (j_)*ld] of the flat array; [blas::size_t] indices are natural
    numbers.  Reading or writing past the end of the array is undefined in
    the source; here a read past the end gives [zero] and a write past the
    end does nothing, and the theorems on the contents of C assume that
    the array holds [ldc * n] elements.  A and B are read-only and are
    arrays of their own: C is not taken to overlap them. *)
Definition at_ (M : array) (ld i j : nat) : scalar_t :=
  default zero (M !! (i + j * ld)).
Definition set_ (M : array) (ld i j : nat) (v : scalar_t) : array :=
  <[i + j * ld := v]> M.

(** Modelled from the spec: [blas_error_if] (a macro of blas/utils.hpp,
    which is not among the sources) fails the call with an
    invalid-argument condition when its argument holds; a failed call
    is [None]. *)
Definition blas_error_if (cond : bool) : option unit :=
  if cond then None else Some tt.

Section Body.
Variables (n k : nat) (A : array) (lda : nat) (B : array) (ldb : nat)
          (beta : R) (ldc : nat).

(** lines 166-184: alpha == zero, beta == zero *)
Definition zero_fill (uplo : Uplo) (C : array) : array :=
  if negb (Uplo_eqb uplo Upper) then
    for_range 0 n (fun j C =>
      for_range 0 (j + 1) (fun i C => set_ C ldc i j zero) C) C
  else if negb (Uplo_eqb uplo Lower) then
    for_range 0 n (fun j C =>
      for_range j n (fun i C => set_ C ldc i j zero) C) C
  else
    for_range 0 n (fun j C =>
      for_range 0 n (fun i C => set_ C ldc i j zero) C) C.

(** lines 185-209: alpha == zero, beta neither zero nor one *)
Definition scale_only (uplo : Uplo) (C : array) : array :=
  if negb (Uplo_eqb uplo Upper) then
    for_range 0 n (fun j C =>
      let C := for_range 0 j (fun i C =>
                 set_ C ldc i j (cscale beta (at_ C ldc i j))) C in
      set_ C ldc j j (of_real (rmul beta (real (at_ C ldc j j))))) C
  else if negb (Uplo_eqb uplo Lower) then
    for_range 0 n (fun j C =>
      let C := set_ C ldc j j (of_real (rmul beta (real (at_ C ldc j j)))) in
      for_range (j + 1) n (fun i C =>
        set_ C ldc i j (cscale beta (at_ C ldc i j))) C) C
  else
    for_range 0 n (fun j C =>
      let C := for_range 0 j (fun i C =>
                 set_ C ldc i j (cscale beta (at_ C ldc i j))) C in
      let C := set_ C ldc j j (of_real (rmul beta (real (at_ C ldc j j)))) in
      for_range (j + 1) n (fun i C =>
        set_ C ldc i j (cscale beta (at_ C ldc i j))) C) C.

(** lines 164-211 *)
Definition alpha_zero (uplo : Uplo) (C : array) : array :=
  if rceqb beta zero then zero_fill uplo C
  else if negb (rceqb beta one) then scale_only uplo C
  else C.

Section Update.
Variable alpha : scalar_t.

(** the rank-1 term added to an off-diagonal entry (lines 229-230) *)
Definition offdiag_term (i j l : nat) : scalar_t :=
  let alphaConjBjl := cmul alpha (conj (at_ B ldb j l)) in
  let conjAlphaAjl := conj (cmul alpha (at_ A lda j l)) in
  cadd (cmul (at_ A lda i l) alphaConjBjl)
       (cmul (at_ B ldb i l) conjAlphaAjl).

(** the real increment of a diagonal entry (line 232) *)
Definition diag_term (j l : nat) : R :=
  let alphaConjBjl := cmul alpha (conj (at_ B ldb j l)) in
  rmul (rlit 2) (real (cmul (at_ A lda j l) alphaConjBjl)).

(** lines 217-234 *)
Definition notrans_upper (C : array) : array :=
  for_range 0 n (fun j C =>
    let C := for_range 0 j (fun i C =>
               set_ C ldc i j (cscale beta (at_ C ldc i j))) C in
    let C := set_ C ldc j j (of_real (rmul beta (real (at_ C ldc j j)))) in
    for_range 0 k (fun l C =>
      let C := for_range 0 j (fun i C =>
                 set_ C ldc i j (cadd (at_ C ldc i j) (offdiag_term i j l))) C in
      set_ C ldc j j (cadd_real (at_ C ldc j j) (diag_term j l))) C) C.

(** lines 237-254 *)
Definition notrans_lower (C : array) : array :=
  for_range 0 n (fun j C =>
    let C := set_ C ldc j j (of_real (rmul beta (real (at_ C ldc j j)))) in
    let C := for_range (j + 1) n (fun i C =>
               set_ C ldc i j (cscale beta (at_ C ldc i j))) C in
    for_range 0 k (fun l C =>
      let C := set_ C ldc j j (cadd_real (at_ C ldc j j) (diag_term j l)) in
      for_range (j + 1) n (fun i C =>
        set_ C ldc i j (cadd (at_ C ldc i j) (offdiag_term i j l))) C) C) C.

(** the two dot products of lines 263-268 *)
Definition sum1 (i j : nat) : scalar_t :=
  for_range 0 k (fun l s =>
    cadd s (cmul (conj (at_ A lda l i)) (at_ B ldb l j))) zero.
Definition sum2 (i j : nat) : scalar_t :=
  for_range 0 k (fun l s =>
    cadd s (cmul (conj (at_ B ldb l i)) (at_ A lda l j))) zero.

Definition combined (i j : nat) : scalar_t :=
  cadd (cmul alpha (sum1 i j)) (cmul (conj alpha) (sum2 i j)).

(** the value assigned at lines 270-273 and 290-293 *)
Definition conjtrans_entry (offdiag : bool) (i j : nat) (c : scalar_t) : scalar_t :=
  if offdiag then cadd (combined i j) (cscale beta c)
  else of_real (radd (real (combined i j)) (rmul beta (real c))).

(** lines 260-276 *)
Definition conjtrans_upper (C : array) : array :=
  for_range 0 n (fun j C =>
    for_range 0 (j + 1) (fun i C =>
      set_ C ldc i j (conjtrans_entry (i <? j) i j (at_ C ldc i j))) C) C.

(** lines 280-296 *)
Definition conjtrans_lower (C : array) : array :=
  for_range 0 n (fun j C =>
    for_range j n (fun i C =>
      set_ C ldc i j (conjtrans_entry (j <? i) i j (at_ C ldc i j))) C) C.

(** lines 300-305 *)
Definition mirror (C : array) : array :=
  for_range 0 n (fun j C =>
    for_range (j + 1) n (fun i C =>
      set_ C ldc i j (conj (at_ C ldc j i))) C) C.

(** lines 213-305 *)
Definition alpha_nonzero (uplo : Uplo) (trans : Op) (C : array) : array :=
  let C :=
    if Op_eqb trans NoTrans then
      if negb (Uplo_eqb uplo Lower) then notrans_upper C
      else notrans_lower C
    else
      if negb (Uplo_eqb uplo Lower) then conjtrans_upper C
      else conjtrans_lower C in
  if Uplo_eqb uplo General then mirror C else C.

(** lines 160-305: what runs once the arguments are accepted *)
Definition her2k_body (uplo : Uplo) (trans : Op) (C : array) : array :=
  if n =? 0 then C
  else if ceqb alpha zero then alpha_zero uplo C
  else alpha_nonzero uplo trans C.
End Update.
End Body.

(** lines 142-149: the row-major adaptation *)
Definition swap_uplo (uplo : Uplo) : Uplo :=
  if Uplo_eqb uplo Lower then Upper
  else if Uplo_eqb uplo Upper then Lower
  else uplo.
Definition flip_op (trans : Op) : Op :=
  if Op_eqb trans NoTrans then ConjTrans else NoTrans.

(** the whole function, lines 89-310 *)
Definition her2k (layout : Layout) (uplo : Uplo) (trans : Op) (n k : nat)
    (alpha : scalar_t) (A : array) (lda : nat) (B : array) (ldb : nat)
    (beta : R) (C : array) (ldc : nat) : option array :=
  _ ← blas_error_if (negb (Layout_eqb layout ColMajor) &&
                     negb (Layout_eqb layout RowMajor));
  _ ← blas_error_if (negb (Uplo_eqb uplo Lower) &&
                     negb (Uplo_eqb uplo Upper) &&
                     negb (Uplo_eqb uplo General));
  _ ← blas_error_if (n <? 0);
  _ ← blas_error_if (k <? 0);
  _ ← blas_error_if (negb (Op_eqb trans NoTrans) &&
                     negb (Op_eqb trans ConjTrans));
  '(uplo', trans', alpha') ←
    (if Layout_eqb layout RowMajor then
       _ ← blas_error_if (lda <? (if Op_eqb trans NoTrans then k else n));
       _ ← blas_error_if (ldb <? (if Op_eqb trans NoTrans then k else n));
       Some (swap_uplo uplo, flip_op trans, conj alpha)
     else
       _ ← blas_error_if (lda <? (if Op_eqb trans NoTrans then n else k));
       _ ← blas_error_if (ldb <? (if Op_eqb trans NoTrans then n else k));
       Some (uplo, trans, alpha));
  _ ← blas_error_if (ldc <? n);
  Some (her2k_body n k A lda B ldb beta ldc alpha' uplo' trans' C).

(** The selectors and the scalar with which the body runs: as given for
    column-major storage, as rewritten by lines 142-149 for row-major. *)
Definition adapt_uplo (layout : Layout) (uplo : Uplo) : Uplo :=
  if Layout_eqb layout RowMajor then swap_uplo uplo else uplo.
Definition adapt_op (layout : Layout) (trans : Op) : Op :=
  if Layout_eqb layout RowMajor then flip_op trans else trans.
Definition adapt_alpha (layout : Layout) (alpha : scalar_t) : scalar_t :=
  if Layout_eqb layout RowMajor then conj alpha else alpha.

(** The array holds the [ldc]-by-[n] storage of C. *)
Definition holds (C : array) (ldc n : nat) : Prop := ldc * n <= length C.

(** A state property for the loops that write other entries: the array
    has length [L] and its entry (p, q) is [v]. *)
Definition entry_is (ld p q : nat) (v : scalar_t) (L : nat) (M : array) : Prop :=
  length M = L /\ at_ M ld p q = v.

(** A Hermitian n-by-n matrix: conjugate-symmetric off the diagonal, and
    a diagonal whose imaginary parts are the real zero. *)
Definition hermitian (C : array) (ldc n : nat) : Prop :=
  (forall i j, i < n -> j < n -> i <> j ->
     at_ C ldc i j = conj (at_ C ldc j i)) /\
  (forall j, j < n -> im (at_ C ldc j j) = r0).

(** The diagonal values as the specification words them.  NoTrans: the
    terms 2 real(A(j,l) alpha conj(B(j,l))) accumulated, l = 0 .. k-1, onto
    beta real(C(j,j)). *)
Definition diag_notrans_spec (k : nat) (alpha : scalar_t) (A : array) (lda : nat)
    (B : array) (ldb : nat) (beta : R) (j : nat) (c : scalar_t) : scalar_t :=
  for_range 0 k (fun l d =>
    cadd_real d
      (rmul (rlit 2)
         (real (cmul (at_ A lda j l) (cmul alpha (conj (at_ B ldb j l)))))))
    (of_real (rmul beta (real c))).

(** ConjTrans: real(alpha sum1 + conj(alpha) sum2) + beta real(C(j,j)). *)
Definition diag_conjtrans_spec (k : nat) (alpha : scalar_t) (A : array) (lda : nat)
    (B : array) (ldb : nat) (beta : R) (j : nat) (c : scalar_t) : scalar_t :=
  let s1 := for_range 0 k (fun l s =>
              cadd s (cmul (conj (at_ A lda l j)) (at_ B ldb l j))) zero in
  let s2 := for_range 0 k (fun l s =>
              cadd s (cmul (conj (at_ B ldb l j)) (at_ A lda l j))) zero in
  of_real (radd (real (cadd (cmul alpha s1) (cmul (conj alpha) s2)))
                (rmul beta (real c))).

(** The off-diagonal entry (i, j) after the NoTrans loops, with the
    passes over l gathered: the rank-1 terms of lines 229-230 added, for
    l = 0 .. k-1, onto beta C(i,j). *)
Definition offdiag_notrans (k : nat) (alpha : scalar_t) (A : array) (lda : nat)
    (B : array) (ldb : nat) (beta : R) (i j : nat) (c : scalar_t) : scalar_t :=
  for_range 0 k (fun l d => cadd d (offdiag_term A lda B ldb alpha i j l))
    (cscale beta c).

(** Two arrays that hold the same rows-by-cols matrix under the leading
    dimension ld. *)
Definition same_on (A1 A2 : array) (ld rows cols : nat) : Prop :=
  forall i j, i < rows -> j < cols -> at_ A1 ld i j = at_ A2 ld i j.

(** Two arrays with the same entries on and above the diagonal of the
    n-by-n matrix. *)
Definition same_upper (C1 C2 : array) (ldc n : nat) : Prop :=
  forall p q, p <= q -> q < n -> at_ C1 ldc p q = at_ C2 ldc p q.
End Kernel.
End Her2k.


(** The Gaussian integers: the scalar type at which the kernel is run on
    concrete inputs. *)
#[export] Instance Z_RealOps : RealOps Z := {
  rlit := fun z => z;
  radd := Z.add;
  rsub := Z.sub;
  rmul := Z.mul;
  ropp := Z.opp;
  reqb := Z.eqb
}.

(** a real entry of a Gaussian-integer array *)
Definition zr (x : Z) : complex Z := Cplx x 0%Z.

(** IEEE binary64, the element type [double]: the kernel's operations are
    the machine's, with their NaN and infinities; [==] is the IEEE
    comparison. *)
Definition float_lit (z : Z) : PrimFloat.float :=
  match z with
  | Z0 => PrimFloat.zero
  | Zpos _ => PrimFloat.of_uint63 (Uint63.of_Z z)
  | Zneg p => PrimFloat.opp (PrimFloat.of_uint63 (Uint63.of_Z (Zpos p)))
  end.

#[export] Instance float_RealOps : RealOps PrimFloat.float := {
  rlit := float_lit;
  radd := PrimFloat.add;
  rsub := PrimFloat.sub;
  rmul := PrimFloat.mul;
  ropp := PrimFloat.opp;
  reqb := PrimFloat.eqb
}.

(** a real entry of a binary64 array *)
Definition fr (x : Z) : complex PrimFloat.float := Cplx (float_lit x) PrimFloat.zero.

(** ** gelqf

    Modelled from the spec: the selectors the reflector primitives take
    (base/types.hpp is not among the sources): the direction, the storage
    convention of the reflectors, the side of application. *)
Inductive Direction := Forward | Backward.
Inductive StoreV := Columnwise | Rowwise.
Inductive Side := Left | Right.

Module Gelqf.

(** [std::pair<idx_t, idx_t>]: a half-open range of rows or columns *)
Definition range : Type := nat * nat.

(** Views alias the matrix they are taken from; they are kept as
    descriptors of the region they cover. *)
Inductive Base := OfA | OfTT.
Inductive View :=
| slice (M : Base) (rows cols : range)
| diag (V : View).

(** One entry per call of a reflector primitive, with its view arguments. *)
Inductive Call :=
| Call_gelq2 (A11 tauw1 : View)
| Call_larft (d : Direction) (sv : StoreV) (A11 tauw1 TT1 : View)
| Call_larfb (sd : Side) (op : Op) (d : Direction) (sv : StoreV)
    (A11 TT1 A12 work1 : View).

(** The caller's storage: the matrices A and TT and the work vector. *)
Record Store (matrix_t work_t : Type) :=
  { st_A : matrix_t; st_TT : matrix_t; st_work : work_t }.
Arguments st_A {matrix_t work_t} _.
Arguments st_TT {matrix_t work_t} _.
Arguments st_work {matrix_t work_t} _.

(** the caller's storage together with the primitive calls made so far *)
Record Run (matrix_t work_t : Type) :=
  { store : Store matrix_t work_t; calls : list Call }.
Arguments store {matrix_t work_t} _.
Arguments calls {matrix_t work_t} _.

(** The matrix capability contract of base/utils.hpp, as far as gelqf
    uses it: [nrows], [ncols], [size], and
    [access_denied(dense, write_policy(A))].  It is not among the sources.
    [idx_t] is the index type of the matrix class, taken as the natural
    numbers. *)
Class MatrixOps (matrix_t work_t : Type) := {
  nrows : matrix_t -> nat;
  ncols : matrix_t -> nat;
  size : work_t -> nat;
  write_denied : matrix_t -> bool
}.

(** The reflector primitives gelq2, larft and larfb, none of them among
    the sources: each acts on the storage through the views it is given. *)
Class Reflectors (matrix_t work_t : Type) := {
  gelq2 : View -> View -> Store matrix_t work_t -> Store matrix_t work_t;
  larft : Direction -> StoreV -> View -> View -> View ->
          Store matrix_t work_t -> Store matrix_t work_t;
  larfb : Side -> Op -> Direction -> StoreV -> View -> View -> View -> View ->
          Store matrix_t work_t -> Store matrix_t work_t
}.

Section Blocked.
Context {matrix_t work_t : Type}.
Context `{MatrixOps matrix_t work_t} `{Reflectors matrix_t work_t}.

Local Abbreviation run := (Run matrix_t work_t).


Definition do_gelq2 (A11 tauw1 : View) (r : run) : run :=
  {| store := gelq2 A11 tauw1 (store r);
     calls := calls r ++ [Call_gelq2 A11 tauw1] |}.
Definition do_larft (d : Direction) (sv : StoreV) (A11 tauw1 TT1 : View) (r : run) : run :=
  {| store := larft d sv A11 tauw1 TT1 (store r);
     calls := calls r ++ [Call_larft d sv A11 tauw1 TT1] |}.
Definition do_larfb (sd : Side) (op : Op) (d : Direction) (sv : StoreV)
    (A11 TT1 A12 work1 : View) (r : run) : run :=
  {| store := larfb sd op d sv A11 TT1 A12 work1 (store r);
     calls := calls r ++ [Call_larfb sd op d sv A11 TT1 A12 work1] |}.

Section Loop.
Variables (m n k nb : nat).

(** lines 86-111: one pass through the loop body at offset [j] *)
Definition panel (j : nat) (r : run) : run :=
  let ib := Nat.min nb (k - j) in
  let TT1 := slice OfTT (j, j + ib) (0, ib) in
  let A11 := slice OfA (j, j + ib) (j, n) in
  let tauw1 := diag TT1 in
  let r := do_gelq2 A11 tauw1 r in
  if j + ib <? k then
    let r := do_larft Forward Rowwise A11 tauw1 TT1 r in
    let A12 := slice OfA (j + ib, m) (j, n) in
    let work1 := slice OfTT (j + ib, m) (0, ib) in
    do_larfb Right NoTrans Forward Rowwise A11 TT1 A12 work1 r
  else r.

(** Where the loop stands after at most [fuel] passes. *)
Inductive loop_state :=
| Exited (r : run)
| Running (j : nat) (r : run).

(** line 84: [for (idx_t j = 0; j < k; j += nb)], from a given [j], with
    the offsets as natural numbers: the loop as long as no [j += nb]
    leaves the range of [idx_t] (see [panel_loop_w] for the loop over a
    fixed-width index) *)
Fixpoint panel_loop (fuel j : nat) (r : run) : loop_state :=
  if j <? k then
    match fuel with
    | 0 => Running j r
    | S fuel' => panel_loop fuel' (j + nb) (panel j r)
    end
  else Exited r.
End Loop.

(** Modelled from the spec: [tlapack_check_false] (a macro of
    base/utils.hpp, which is not among the sources) makes the routine
    fail with the given position-indexed code when the condition holds;
    [Some code] is that early return. *)
Definition tlapack_check_false (cond : bool) (code : Z) : option Z :=
  if cond then Some code else None.

(** the run a call starts from: the caller's storage, no primitive called *)
Definition fresh (A TT : matrix_t) (work : work_t) : run :=
  {| store := {| st_A := A; st_TT := TT; st_work := work |}; calls := [] |}.

(** lines 69-115.  [None]: the call has not returned within [fuel] passes
    of the panel loop. *)
Definition gelqf (fuel : nat) (A TT : matrix_t) (work : work_t) (nb : nat)
    : option (Z * run) :=
  let r := fresh A TT work in
  let m := nrows A in
  let n := ncols A in
  let k := Nat.min m n in
  match tlapack_check_false (write_denied A) (-1) with
  | Some code => Some (code, r)
  | None =>
  match tlapack_check_false ((nrows TT <? m) || (ncols TT <? nb)) (-2) with
  | Some code => Some (code, r)
  | None =>
  match tlapack_check_false (size work <? m) (-3) with
  | Some code => Some (code, r)
  | None =>
  match panel_loop m n k nb fuel 0 r with
  | Exited r' => Some (0%Z, r')
  | Running _ _ => None
  end end end end.

(** the offsets [j] at which the loop body has run *)
Definition panel_starts (cs : list Call) : list nat :=
  omap (fun c => match c with
                 | Call_gelq2 (slice _ (j, _) _) _ => Some j
                 | _ => None
                 end) cs.

(** the number of passes claimed for the loop: k / nb rounded up *)
Definition ceil_div (k nb : nat) : nat := (k + nb - 1) / nb.

(** the three argument checks of lines 80-82 *)
Definition rejected (A TT : matrix_t) (work : work_t) (nb : nat) : bool :=
  write_denied A
  || ((nrows TT <? nrows A) || (ncols TT <? nb))
  || (size work <? nrows A).

(** *** The loop over a fixed-width index type

    [idx_t] is [size_type<matrix_t>], an unsigned integer type of some
    width [w]: the sum of line 84, [j += nb], is taken modulo 2^w.  The
    other index expressions of the body cannot leave the range: inside the
    loop j < k, so [k - j] does not go below 0 and [j + ib <= k]. *)
Definition idx_wrap (w x : nat) : nat := x mod 2 ^ w.

Section FixedWidth.
Variables (w m n k nb : nat).

(** line 84 with a [w]-bit [idx_t] *)
Fixpoint panel_loop_w (fuel j : nat) (r : run) : loop_state :=
  if j <? k then
    match fuel with
    | 0 => Running j r
    | S fuel' => panel_loop_w fuel' (idx_wrap w (j + nb)) (panel m n k nb j r)
    end
  else Exited r.
End FixedWidth.

(** lines 69-115 with a [w]-bit [idx_t].  [None]: the call has not
    returned within [fuel] passes of the panel loop. *)
Definition gelqf_w (w fuel : nat) (A TT : matrix_t) (work : work_t) (nb : nat)
    : option (Z * run) :=
  let r := fresh A TT work in
  let m := nrows A in
  let n := ncols A in
  let k := Nat.min m n in
  match tlapack_check_false (write_denied A) (-1) with
  | Some code => Some (code, r)
  | None =>
  match tlapack_check_false ((nrows TT <? m) || (ncols TT <? nb)) (-2) with
  | Some code => Some (code, r)
  | None =>
  match tlapack_check_false (size work <? m) (-3) with
  | Some code => Some (code, r)
  | None =>
  match panel_loop_w w m n k nb fuel 0 r with
  | Exited r' => Some (0%Z, r')
  | Running _ _ => None
  end end end end.
End Blocked.

Arguments Exited {matrix_t work_t} _.
Arguments Running {matrix_t work_t} _ _.

(** A concrete instance: matrices known by their extents only, with a
    write-access flag; the primitives leave such a store as it is. *)
Record shape := { sh_rows : nat; sh_cols : nat; sh_readonly : bool }.

#[export] Instance shape_MatrixOps : MatrixOps shape nat := {
  nrows := sh_rows;
  ncols := sh_cols;
  size := fun w => w;
  write_denied := sh_readonly
}.

#[export] Instance shape_Reflectors : Reflectors shape nat := {
  gelq2 := fun _ _ s => s;
  larft := fun _ _ _ _ _ s => s;
  larfb := fun _ _ _ _ _ _ _ _ s => s
}.

Definition writable (rows cols : nat) : shape :=
  {| sh_rows := rows; sh_cols := cols; sh_readonly := false |}.

(** *** Reading the call log *)

(** the primitive a call is to *)
Inductive Prim := Gelq2 | Larft | Larfb.

Definition call_prim (c : Call) : Prim :=
  match c with
  | Call_gelq2 _ _ => Gelq2
  | Call_larft _ _ _ _ _ => Larft
  | Call_larfb _ _ _ _ _ _ _ _ => Larfb
  end.

(** the views a call hands to its primitive *)
Definition call_views (c : Call) : list View :=
  match c with
  | Call_gelq2 A11 tauw1 => [A11; tauw1]
  | Call_larft _ _ A11 tauw1 TT1 => [A11; tauw1; TT1]
  | Call_larfb _ _ _ _ A11 TT1 A12 work1 => [A11; TT1; A12; work1]
  end.

(** A view lies within its matrix: A of extents mA-by-nA, TT of extents
    mT-by-nT; both of its ranges are well formed. *)
Fixpoint view_within (mA nA mT nT : nat) (v : View) : Prop :=
  match v with
  | slice OfA (r1, r2) (c1, c2) => (r1 <= r2 /\ r2 <= mA) /\ (c1 <= c2 /\ c2 <= nA)
  | slice OfTT (r1, r2) (c1, c2) => (r1 <= r2 /\ r2 <= mT) /\ (c1 <= c2 /\ c2 <= nT)
  | diag v' => view_within mA nA mT nT v'
  end.

(** the row ranges of the panels handed to gelq2, in call order *)
Definition gelq2_rows (cs : list Call) : list range :=
  omap (fun c => match c with
                 | Call_gelq2 (slice _ rows _) _ => Some rows
                 | _ => None
                 end) cs.

(** The first row a view reaches; for a view of A, the lesser of its
    first row and first column. *)
Fixpoint view_low (v : View) : nat :=
  match v with
  | slice OfA (r1, _) (c1, _) => Nat.min r1 c1
  | slice OfTT (r1, _) _ => r1
  | diag v' => view_low v'
  end.

(** Every view of the call starts at row (and, in A, column) [j] or
    beyond. *)
Definition call_from (j : nat) (c : Call) : Prop :=
  Forall (fun v => j <= view_low v) (call_views c).

(** where the panel a call works on starts: the first row of its A11 *)
Definition call_start (c : Call) : nat :=
  match c with
  | Call_gelq2 A11 _ => view_low A11
  | Call_larft _ _ A11 _ _ => view_low A11
  | Call_larfb _ _ _ _ A11 _ _ _ => view_low A11
  end.

(** No call reaches before the start of the panel of an earlier call. *)
Definition never_back (cs : list Call) : Prop :=
  forall i i' c c',
    i <= i' -> cs !! i = Some c -> cs !! i' = Some c' ->
    call_from (call_start c) c'.

(** In a call of larfb, the target A12 is the rows of A directly below the
    panel A11, in the same columns, and the workspace is the rows of TT
    directly below the block TT1, in the same columns. *)
Definition larfb_below (c : Call) : Prop :=
  match c with
  | Call_larfb _ _ _ _ (slice OfA (_, e) ca) (slice OfTT (_, e') ct)
      (slice OfA (a, _) ca') (slice OfTT (w, _) ct') =>
      a = e /\ w = e' /\ ca' = ca /\ ct' = ct
  | Call_larfb _ _ _ _ _ _ _ _ => False
  | _ => True
  end.

(** all views of all calls lie within A and TT *)
Definition calls_within (mA nA mT nT : nat) (cs : list Call) : Prop :=
  Forall (fun c => Forall (view_within mA nA mT nT) (call_views c)) cs.
End Gelqf.


(** * Properties *)

(** ** Loops *)
Lemma for_range_empty {St : Type} (lo hi : nat) (body : nat -> St -> St) (s : St) :
  hi <= lo -> for_range lo hi body s = s.
Proof.
  intros Hle. unfold for_range.
  replace (hi - lo) with 0 by lia. reflexivity.
Qed.

Lemma for_range_last {St : Type} (lo hi : nat) (body : nat -> St -> St) (s : St) :
  lo <= hi ->
  for_range lo (S hi) body s = body hi (for_range lo hi body s).
Proof.
  intros Hle. unfold for_range.
  replace (S hi - lo) with (S (hi - lo)) by lia.
  rewrite seq_S, fold_left_app. simpl.
  replace (lo + (hi - lo)) with hi by lia. reflexivity.
Qed.

Lemma for_range_first {St : Type} (lo hi : nat) (body : nat -> St -> St) (s : St) :
  lo < hi -> for_range lo hi body s = for_range (S lo) hi body (body lo s).
Proof.
  intros Hlt. unfold for_range.
  replace (hi - lo) with (S (hi - S lo)) by lia. reflexivity.
Qed.

(** The invariant rule: [P i] holds of the state with which pass [i]
    starts, and of the final state at [hi]. *)
Lemma for_range_inv {St : Type} (P : nat -> St -> Prop) (lo hi : nat)
    (body : nat -> St -> St) (s : St) :
  lo <= hi ->
  P lo s ->
  (forall i t, lo <= i < hi -> P i t -> P (i + 1) (body i t)) ->
  P hi (for_range lo hi body s).
Proof.
  intros Hle Hs Hstep. induction hi as [|hi IH].
  - assert (lo = 0) as -> by lia. rewrite for_range_empty; [exact Hs | lia].
  - destruct (decide (lo = S hi)) as [->|Hne].
    + rewrite for_range_empty; [exact Hs | lia].
    + rewrite for_range_last by lia.
      replace (S hi) with (hi + 1) by lia.
      apply Hstep; [lia|]. apply IH; [lia|].
      intros i t Hi. apply Hstep. lia.
Qed.

(** A state property that every pass keeps is kept by the loop. *)
Lemma for_range_keeps {St : Type} (P : St -> Prop) (lo hi : nat)
    (body : nat -> St -> St) (s : St) :
  P s ->
  (forall i t, lo <= i < hi -> P t -> P (body i t)) ->
  P (for_range lo hi body s).
Proof.
  intros Hs Hstep. destruct (decide (lo <= hi)) as [Hle|Hgt].
  - apply (for_range_inv (fun _ => P)); auto.
  - rewrite for_range_empty; [exact Hs | lia].
Qed.

(** ** The integers satisfy the laws *)
#[export] Instance Z_RealLaws : RealLaws Z.
Proof.
  split; simpl.
  - intros x y. apply Z.eqb_eq.
  - discriminate.
  - reflexivity.
  - apply Z.opp_involutive.
Qed.

(** ** her2k *)
Module Her2kFacts.
Import Her2k.

(** Splits a call that returned on the outcome of each argument check. *)
Ltac pass_checks Hcall :=
  repeat match type of Hcall with
         | context [blas_error_if ?c] =>
             let E := fresh "Hchk" in
             destruct c eqn:E; simpl in Hcall; [discriminate Hcall|]
         end.

Section Generic.
Context {R : Type} `{RealOps R}.

Local Abbreviation scalar_t := (complex R).
Local Abbreviation array := (list (complex R)).

(** What an accepted call returns, and what acceptance says of the
    arguments. *)
Lemma her2k_accepted layout uplo trans n k (alpha : scalar_t) (A : array) lda
    (B : array) ldb beta (C : array) ldc C' :
  her2k layout uplo trans n k alpha A lda B ldb beta C ldc = Some C' ->
  trans <> Trans /\ n <= ldc /\
  C' = her2k_body n k A lda B ldb beta ldc (adapt_alpha layout alpha)
         (adapt_uplo layout uplo) (adapt_op layout trans) C.
Proof.
  intros Hcall. unfold her2k in Hcall. simpl in Hcall.
  destruct layout, trans; simpl in Hcall; try discriminate Hcall;
    pass_checks Hcall; try discriminate Hcall; injection Hcall as <-;
    (split; [discriminate|]); (split; [apply Nat.ltb_ge; assumption|]);
    reflexivity.
Qed.

(** C4: a row-major call is the column-major call on the same arrays with
    the triangle swapped (Lower for Upper, Upper for Lower, General kept),
    the operation flipped (ConjTrans for NoTrans, NoTrans for ConjTrans)
    and alpha replaced by its conjugate re(alpha) - i im(alpha): the two
    calls are rejected together and return the same array.  The six
    equations name the selectors on both sides. *)
Theorem her2k_rowmajor_as_colmajor :
  forall n k (alpha : scalar_t) (A : array) lda (B : array) ldb beta
         (C : array) ldc,
    let alpha' := Cplx (re alpha) (ropp (im alpha)) in
    her2k RowMajor Lower NoTrans n k alpha A lda B ldb beta C ldc
      = her2k ColMajor Upper ConjTrans n k alpha' A lda B ldb beta C ldc
    /\ her2k RowMajor Upper NoTrans n k alpha A lda B ldb beta C ldc
      = her2k ColMajor Lower ConjTrans n k alpha' A lda B ldb beta C ldc
    /\ her2k RowMajor General NoTrans n k alpha A lda B ldb beta C ldc
      = her2k ColMajor General ConjTrans n k alpha' A lda B ldb beta C ldc
    /\ her2k RowMajor Lower ConjTrans n k alpha A lda B ldb beta C ldc
      = her2k ColMajor Upper NoTrans n k alpha' A lda B ldb beta C ldc
    /\ her2k RowMajor Upper ConjTrans n k alpha A lda B ldb beta C ldc
      = her2k ColMajor Lower NoTrans n k alpha' A lda B ldb beta C ldc
    /\ her2k RowMajor General ConjTrans n k alpha A lda B ldb beta C ldc
      = her2k ColMajor General NoTrans n k alpha' A lda B ldb beta C ldc.
Proof.
  intros. repeat split; reflexivity.
Qed.

(** *** The flat array behind C *)

Lemma at_set_same (M : array) ld i j v :
  i + j * ld < length M -> at_ (set_ M ld i j v) ld i j = v.
Proof.
  intros Hlt. unfold at_, set_.
  rewrite list_lookup_insert_eq by exact Hlt. reflexivity.
Qed.

Lemma at_set_other (M : array) ld i j p q v :
  i + j * ld <> p + q * ld -> at_ (set_ M ld i j v) ld p q = at_ M ld p q.
Proof.
  intros Hne. unfold at_, set_.
  rewrite list_lookup_insert_ne by exact Hne. reflexivity.
Qed.

Lemma length_set (M : array) ld i j v : length (set_ M ld i j v) = length M.
Proof. apply length_insert. Qed.

(** Below the leading dimension, distinct entries have distinct places. *)
Lemma place_inj ld i j p q :
  i < ld -> p < ld -> i + j * ld = p + q * ld -> i = p /\ j = q.
Proof.
  intros Hi Hp Heq.
  assert (j = q) as -> by nia. split; [lia | reflexivity].
Qed.

Lemma place_in_array (M : array) ld n i j :
  holds M ld n -> n <= ld -> i < n -> j < n -> i + j * ld < length M.
Proof. unfold holds. intros Hh Hn Hi Hj. nia. Qed.

Lemma entry_is_set ld p q v L (M : array) i j w :
  i < ld -> p < ld -> (i <> p \/ j <> q) ->
  entry_is ld p q v L M -> entry_is ld p q v L (set_ M ld i j w).
Proof.
  intros Hi Hp Hne [Hlen Hv]. split.
  - rewrite length_set. exact Hlen.
  - rewrite at_set_other; [exact Hv|].
    intros Heq. apply place_inj in Heq as [? ?]; lia.
Qed.

Lemma entry_is_set_same ld i j w L (M : array) :
  length M = L -> i + j * ld < L -> entry_is ld i j w L (set_ M ld i j w).
Proof.
  intros Hlen Hlt. split.
  - rewrite length_set. exact Hlen.
  - apply at_set_same. lia.
Qed.

(** Carries [entry_is] through loops and assignments that write other
    entries; the side conditions are arithmetic on the loop bounds. *)
Ltac keep_entry :=
  cbv beta zeta;
  repeat first
    [ assumption
    | match goal with
      | |- entry_is ?ld ?p ?q ?v ?L (for_range _ _ _ _) =>
          apply (for_range_keeps (entry_is ld p q v L));
          [| intros ? ? ? ?; cbv beta zeta]
      | |- entry_is _ _ _ _ _ (set_ _ _ _ _ _) =>
          apply entry_is_set; [lia | lia | lia |]
      end ].

(** *** The outer loop over the columns

    When pass [j] keeps the other diagonal entries and turns entry (j, j)
    from [v] into [spec j v], the loop over all columns leaves
    [spec j] of the initial value on every diagonal entry. *)
Lemma diag_by_columns n ldc (colbody : nat -> array -> array)
    (spec : nat -> scalar_t -> scalar_t) (C : array) :
  (forall j M p v, j < n -> p < n -> p <> j ->
     entry_is ldc p p v (length C) M ->
     entry_is ldc p p v (length C) (colbody j M)) ->
  (forall j M v, j < n ->
     entry_is ldc j j v (length C) M ->
     entry_is ldc j j (spec j v) (length C) (colbody j M)) ->
  forall j, j < n ->
    entry_is ldc j j (spec j (at_ C ldc j j)) (length C) (for_range 0 n colbody C).
Proof.
  intros Hother Hdiag j Hj.
  cut (forall p, p < n ->
         entry_is ldc p p (if p <? n then spec p (at_ C ldc p p) else at_ C ldc p p)
           (length C) (for_range 0 n colbody C)).
  { intros Hall. specialize (Hall j Hj).
    destruct (Nat.ltb_spec j n); [exact Hall | lia]. }
  apply (for_range_inv
           (fun j0 M => forall p, p < n ->
              entry_is ldc p p
                (if p <? j0 then spec p (at_ C ldc p p) else at_ C ldc p p)
                (length C) M)).
  - lia.
  - intros p Hp. simpl. split; reflexivity.
  - intros j0 M Hj0 Hinv p Hp. specialize (Hinv p Hp).
    destruct (Nat.ltb_spec p (j0 + 1)), (Nat.ltb_spec p j0); try lia.
    + apply Hother; [lia | lia | lia | exact Hinv].
    + assert (p = j0) as -> by lia. apply Hdiag; [lia | exact Hinv].
    + apply Hother; [lia | lia | lia | exact Hinv].
Qed.

(** *** The mirror step *)
Lemma mirror_entries n ldc (C : array) :
  n <= ldc -> holds C ldc n ->
  length (mirror n ldc C) = length C /\
  forall p q, p < n -> q < n ->
    at_ (mirror n ldc C) ldc p q
      = if q <? p then conj (at_ C ldc q p) else at_ C ldc p q.
Proof.
  intros Hld Hholds. unfold mirror.
  pose (done := fun (j0 i0 p q : nat) => q < p /\ (q < j0 \/ (q = j0 /\ p < i0))).
  pose (Inv := fun (j0 i0 : nat) (M : array) =>
    length M = length C /\
    forall p q, p < n -> q < n ->
      (done j0 i0 p q -> at_ M ldc p q = conj (at_ C ldc q p)) /\
      (~ done j0 i0 p q -> at_ M ldc p q = at_ C ldc p q)).
  assert (Inv n 0 (for_range 0 n (fun j M =>
            for_range (j + 1) n (fun i M' =>
              set_ M' ldc i j (conj (at_ M' ldc j i))) M) C)) as [Hlen Hval].
  { apply (for_range_inv (fun j0 M => Inv j0 0 M)).
    - lia.
    - split; [reflexivity|]. intros p q Hp Hq. unfold done. split; [lia | reflexivity].
    - intros j0 M Hj0 HM.
      assert (Inv j0 n (for_range (j0 + 1) n (fun i M' =>
                set_ M' ldc i j0 (conj (at_ M' ldc j0 i))) M)) as [Hl Hv].
      { apply (for_range_inv (fun i0 M' => Inv j0 i0 M')).
        - lia.
        - destruct HM as [Hl Hv]. split; [exact Hl|].
          intros p q Hp Hq. specialize (Hv p q Hp Hq) as [Hv1 Hv2].
          unfold done in *. split; intros Hd.
          + apply Hv1. lia.
          + apply Hv2. lia.
        - intros i M' Hi [Hl Hv]. split; [rewrite length_set; exact Hl|].
          assert (at_ M' ldc j0 i = at_ C ldc j0 i) as Hread.
          { apply (Hv j0 i); [lia | lia |]. unfold done. lia. }
          intros p q Hp Hq.
          destruct (decide (p = i /\ q = j0)) as [[-> ->]|Hne].
          + rewrite at_set_same.
            2:{ rewrite Hl. apply (place_in_array C ldc n); assumption || lia. }
            rewrite Hread. unfold done. split; [reflexivity | lia].
          + rewrite at_set_other.
            2:{ intros Heq. apply place_inj in Heq as [? ?]; lia. }
            specialize (Hv p q Hp Hq) as [Hv1 Hv2].
            unfold done in *. split; intros Hd.
            * apply Hv1. lia.
            * apply Hv2. lia. }
      split; [exact Hl|]. intros p q Hp Hq.
      specialize (Hv p q Hp Hq) as [Hv1 Hv2].
      unfold done in *. split; intros Hd.
      + apply Hv1. lia.
      + apply Hv2. lia. }
  split; [exact Hlen|]. intros p q Hp Hq.
  specialize (Hval p q Hp Hq) as [Hv1 Hv2]. unfold done in *.
  destruct (Nat.ltb_spec q p).
  - apply Hv1. lia.
  - apply Hv2. lia.
Qed.

(** *** Loops that write a range of rows in each column

    Column j gets rows [lo j, hi j) rewritten, each from its own value;
    everything else is left as it was. *)
Lemma fill_columns n ldc (lo hi : nat -> nat)
    (f : nat -> nat -> scalar_t -> scalar_t) (C : array) :
  n <= ldc -> holds C ldc n ->
  (forall j, j < n -> hi j <= n) ->
  let C' := for_range 0 n (fun j M =>
              for_range (lo j) (hi j) (fun i M' =>
                set_ M' ldc i j (f i j (at_ M' ldc i j))) M) C in
  length C' = length C /\
  forall p q, p < n -> q < n ->
    at_ C' ldc p q
      = if (lo q <=? p) && (p <? hi q) then f p q (at_ C ldc p q)
        else at_ C ldc p q.
Proof.
  intros Hld Hholds Hhi C'. subst C'.
  pose (done := fun (j0 i0 p q : nat) =>
    (lo q <= p /\ p < hi q) /\ (q < j0 \/ (q = j0 /\ p < i0))).
  pose (Inv := fun (j0 i0 : nat) (M : array) =>
    length M = length C /\
    forall p q, p < n -> q < n ->
      (done j0 i0 p q -> at_ M ldc p q = f p q (at_ C ldc p q)) /\
      (~ done j0 i0 p q -> at_ M ldc p q = at_ C ldc p q)).
  assert (forall j0 i0 j1 i1 M,
            (forall p q, p < n -> q < n -> done j0 i0 p q <-> done j1 i1 p q) ->
            Inv j0 i0 M -> Inv j1 i1 M) as Hmove.
  { intros j0 i0 j1 i1 M Heqv [Hl Hv]. split; [exact Hl|].
    intros p q Hp Hq. specialize (Hv p q Hp Hq) as [Hv1 Hv2].
    specialize (Heqv p q Hp Hq). split; intros Hd.
    - apply Hv1, Heqv, Hd.
    - apply Hv2. intros Hd'. apply Hd, Heqv, Hd'. }
  match goal with
  | |- length ?K = _ /\ _ => assert (Inv n 0 K) as [Hlen Hval]
  end.
  { apply (for_range_inv (fun j0 M => Inv j0 0 M)).
    - lia.
    - split; [reflexivity|]. intros p q Hp Hq. unfold done.
      split; [lia | reflexivity].
    - intros j0 M Hj0 HM.
      destruct (le_lt_dec (lo j0) (hi j0)) as [Hrange|Hempty].
      + apply (Hmove j0 (hi j0)); [unfold done; intros p q ? ?; destruct (decide (q = j0)) as [->|?]; lia|].
        apply (for_range_inv (fun i0 M' => Inv j0 i0 M')).
        * exact Hrange.
        * apply (Hmove j0 0); [unfold done; intros p q ? ?; destruct (decide (q = j0)) as [->|?]; lia | exact HM].
        * intros i M' Hi [Hl Hv]. specialize (Hhi j0 ltac:(lia)).
          split; [rewrite length_set; exact Hl|].
          assert (at_ M' ldc i j0 = at_ C ldc i j0) as ->.
          { apply (Hv i j0); [lia | lia |]. unfold done. lia. }
          intros p q Hp Hq.
          destruct (decide (p = i /\ q = j0)) as [[-> ->]|Hne].
          -- rewrite at_set_same.
             2:{ rewrite Hl. apply (place_in_array C ldc n); assumption || lia. }
             unfold done. split; [reflexivity | lia].
          -- rewrite at_set_other.
             2:{ intros Heq. apply place_inj in Heq as [? ?]; lia. }
             specialize (Hv p q Hp Hq) as [Hv1 Hv2].
             unfold done in *. split; intros Hd.
             ++ apply Hv1. lia.
             ++ apply Hv2. lia.
      + rewrite for_range_empty by lia.
        apply (Hmove j0 0); [unfold done; intros p q ? ?; destruct (decide (q = j0)) as [->|?]; lia | exact HM]. }
  split; [exact Hlen|]. intros p q Hp Hq.
  specialize (Hval p q Hp Hq) as [Hv1 Hv2]. unfold done in *.
  destruct (Nat.leb_spec (lo q) p), (Nat.ltb_spec p (hi q)); simpl.
  - apply Hv1. lia.
  - apply Hv2. lia.
  - apply Hv2. lia.
  - apply Hv2. lia.
Qed.

(** What the zero fill of lines 166-184 writes: under Lower and under
    General the entries with i <= j, under Upper the entries with i >= j. *)
Lemma zero_fill_entries n ldc uplo (C : array) :
  n <= ldc -> holds C ldc n ->
  forall p q, p < n -> q < n ->
    at_ (zero_fill n ldc uplo C) ldc p q
      = match uplo with
        | Upper => if q <=? p then zero else at_ C ldc p q
        | Lower | General => if p <=? q then zero else at_ C ldc p q
        end.
Proof.
  intros Hld Hholds p q Hp Hq. unfold zero_fill.
  destruct uplo; simpl.
  - destruct (fill_columns n ldc (fun j => j) (fun _ => n) (fun _ _ _ => zero) C)
      as [_ Hv]; [assumption | assumption | lia |].
    rewrite (Hv p q Hp Hq).
    destruct (Nat.leb_spec q p), (Nat.ltb_spec p n); simpl; try lia; reflexivity.
  - destruct (fill_columns n ldc (fun _ => 0) (fun j => j + 1) (fun _ _ _ => zero) C)
      as [_ Hv]; [assumption | assumption | intros; lia |].
    rewrite (Hv p q Hp Hq).
    destruct (Nat.leb_spec p q), (Nat.ltb_spec p (q + 1)); simpl; try lia; reflexivity.
  - destruct (fill_columns n ldc (fun _ => 0) (fun j => j + 1) (fun _ _ _ => zero) C)
      as [_ Hv]; [assumption | assumption | intros; lia |].
    rewrite (Hv p q Hp Hq).
    destruct (Nat.leb_spec p q), (Nat.ltb_spec p (q + 1)); simpl; try lia; reflexivity.
Qed.

(** *** The diagonal after each of the four update loops *)

Lemma notrans_upper_diag n k (A : array) lda (B : array) ldb beta ldc
    (alpha : scalar_t) (C : array) :
  n <= ldc -> holds C ldc n ->
  forall j, j < n ->
    entry_is ldc j j (diag_notrans_spec k alpha A lda B ldb beta j (at_ C ldc j j))
      (length C) (notrans_upper n k A lda B ldb beta ldc alpha C).
Proof.
  intros Hld Hholds. unfold notrans_upper.
  apply (diag_by_columns n ldc _
           (fun j v => diag_notrans_spec k alpha A lda B ldb beta j v)).
  - intros j M p v Hj Hp Hne HM. keep_entry.
  - intros j M v Hj HM. cbv beta zeta. unfold diag_notrans_spec.
    assert (j + j * ldc < length C) as Hplace
      by (apply (place_in_array C ldc n); assumption).
    match goal with
    | |- entry_is _ _ _ (for_range 0 k ?step ?init) _ _ =>
        apply (for_range_inv (fun l M' =>
                 entry_is ldc j j (for_range 0 l step init) (length C) M'))
    end.
    + lia.
    + match goal with
      | |- entry_is _ _ _ _ _ (set_ ?M1 _ _ _ _) =>
          assert (entry_is ldc j j v (length C) M1) as [Hl Hv] by keep_entry
      end.
      rewrite Hv. apply entry_is_set_same; assumption.
    + intros l M' Hl HM'. cbv beta zeta.
      match goal with
      | |- entry_is _ _ _ _ _ (set_ ?M1 _ _ _ _) =>
          match type of HM' with
          | entry_is _ _ _ ?w _ _ =>
              assert (entry_is ldc j j w (length C) M1) as [Hlen Hv] by keep_entry
          end
      end.
      rewrite Hv. replace (l + 1) with (S l) by lia.
      rewrite for_range_last by lia.
      apply entry_is_set_same; assumption.
Qed.

Lemma notrans_lower_diag n k (A : array) lda (B : array) ldb beta ldc
    (alpha : scalar_t) (C : array) :
  n <= ldc -> holds C ldc n ->
  forall j, j < n ->
    entry_is ldc j j (diag_notrans_spec k alpha A lda B ldb beta j (at_ C ldc j j))
      (length C) (notrans_lower n k A lda B ldb beta ldc alpha C).
Proof.
  intros Hld Hholds. unfold notrans_lower.
  apply (diag_by_columns n ldc _
           (fun j v => diag_notrans_spec k alpha A lda B ldb beta j v)).
  - intros j M p v Hj Hp Hne HM. keep_entry.
  - intros j M v Hj [HlM HvM]. cbv beta zeta. unfold diag_notrans_spec.
    assert (j + j * ldc < length C) as Hplace
      by (apply (place_in_array C ldc n); assumption).
    match goal with
    | |- entry_is _ _ _ (for_range 0 k ?step ?init) _ _ =>
        apply (for_range_inv (fun l M' =>
                 entry_is ldc j j (for_range 0 l step init) (length C) M'))
    end.
    + lia.
    + rewrite HvM.
      assert (entry_is ldc j j (of_real (rmul beta (real v))) (length C)
                (set_ M ldc j j (of_real (rmul beta (real v))))) as Hset
        by (apply entry_is_set_same; assumption).
      keep_entry.
    + intros l M' Hl [Hlen Hv]. cbv beta zeta. rewrite Hv.
      replace (l + 1) with (S l) by lia. rewrite for_range_last by lia.
      match goal with
      | |- entry_is _ _ _ ?w _ (for_range _ _ _ (set_ M' _ _ _ ?w')) =>
          assert (entry_is ldc j j w (length C) (set_ M' ldc j j w')) as Hset
            by (apply entry_is_set_same; assumption)
      end.
      keep_entry.
Qed.

Lemma conjtrans_upper_diag n k (A : array) lda (B : array) ldb beta ldc
    (alpha : scalar_t) (C : array) :
  n <= ldc -> holds C ldc n ->
  forall j, j < n ->
    entry_is ldc j j (diag_conjtrans_spec k alpha A lda B ldb beta j (at_ C ldc j j))
      (length C) (conjtrans_upper n k A lda B ldb beta ldc alpha C).
Proof.
  intros Hld Hholds. unfold conjtrans_upper.
  apply (diag_by_columns n ldc _
           (fun j v => diag_conjtrans_spec k alpha A lda B ldb beta j v)).
  - intros j M p v Hj Hp Hne HM. keep_entry.
  - intros j M v Hj HM.
    assert (j + j * ldc < length C) as Hplace
      by (apply (place_in_array C ldc n); assumption).
    replace (j + 1) with (S j) by lia. rewrite for_range_last by lia.
    match goal with
    | |- entry_is _ _ _ _ _ (set_ ?M1 _ _ _ _) =>
        assert (entry_is ldc j j v (length C) M1) as [Hl Hv] by keep_entry
    end.
    rewrite Hv, Nat.ltb_irrefl.
    apply entry_is_set_same; assumption.
Qed.

Lemma conjtrans_lower_diag n k (A : array) lda (B : array) ldb beta ldc
    (alpha : scalar_t) (C : array) :
  n <= ldc -> holds C ldc n ->
  forall j, j < n ->
    entry_is ldc j j (diag_conjtrans_spec k alpha A lda B ldb beta j (at_ C ldc j j))
      (length C) (conjtrans_lower n k A lda B ldb beta ldc alpha C).
Proof.
  intros Hld Hholds. unfold conjtrans_lower.
  apply (diag_by_columns n ldc _
           (fun j v => diag_conjtrans_spec k alpha A lda B ldb beta j v)).
  - intros j M p v Hj Hp Hne HM. keep_entry.
  - intros j M v Hj [HlM HvM].
    assert (j + j * ldc < length C) as Hplace
      by (apply (place_in_array C ldc n); assumption).
    rewrite for_range_first by lia.
    rewrite HvM, Nat.ltb_irrefl.
    match goal with
    | |- entry_is _ _ _ ?w _ (for_range _ _ _ ?M1) =>
        assert (entry_is ldc j j w (length C) M1) as Hset
          by (apply entry_is_set_same; assumption)
    end.
    keep_entry.
Qed.

Lemma im_diag_notrans_spec k (alpha : scalar_t) (A : array) lda (B : array) ldb
    beta j c :
  im (diag_notrans_spec k alpha A lda B ldb beta j c) = r0.
Proof.
  unfold diag_notrans_spec.
  apply (for_range_keeps (fun d : scalar_t => im d = r0)).
  - reflexivity.
  - intros l d _ Hd. exact Hd.
Qed.

Lemma im_diag_conjtrans_spec k (alpha : scalar_t) (A : array) lda (B : array) ldb
    beta j c :
  im (diag_conjtrans_spec k alpha A lda B ldb beta j c) = r0.
Proof. reflexivity. Qed.

(** *** Rejections and the quick return *)

(** X2: the quick return of lines 161-162: an accepted call with n = 0
    returns C as it was given, whatever the other arguments. *)
Theorem her2k_order_zero :
  forall layout uplo trans k (alpha : scalar_t) (A : array) lda (B : array) ldb
         beta (C : array) ldc C',
    her2k layout uplo trans 0 k alpha A lda B ldb beta C ldc = Some C' ->
    C' = C.
Proof.
  intros * Hcall. apply her2k_accepted in Hcall as (_ & _ & ->). reflexivity.
Qed.

(** *** Single entries through the loops *)

(** One loop over the rows of column j, each entry rewritten from its own
    value: entry (p, j) is rewritten when p is in the range. *)
Lemma rows_pass ldc j lo hi (g : nat -> scalar_t -> scalar_t) L (M : array) p v :
  hi <= ldc -> p < ldc -> p + j * ldc < L ->
  entry_is ldc p j v L M ->
  entry_is ldc p j (if (lo <=? p) && (p <? hi) then g p v else v) L
    (for_range lo hi (fun i M' => set_ M' ldc i j (g i (at_ M' ldc i j))) M).
Proof.
  intros Hhi Hp Hplace HM.
  destruct (le_lt_dec lo hi) as [Hrange|Hempty].
  - apply (for_range_inv (fun i0 M' =>
             entry_is ldc p j (if (lo <=? p) && (p <? i0) then g p v else v) L M')).
    + exact Hrange.
    + destruct (Nat.leb_spec lo p), (Nat.ltb_spec p lo); simpl; try lia; exact HM.
    + intros i M' Hi [Hlen Hv].
      destruct (decide (i = p)) as [->|Hne].
      * destruct (Nat.leb_spec lo p), (Nat.ltb_spec p p), (Nat.ltb_spec p (p + 1));
          simpl in *; try lia.
        rewrite Hv. apply entry_is_set_same; assumption.
      * apply entry_is_set; [lia | lia | lia |]. split; [exact Hlen|].
        rewrite Hv.
        destruct (Nat.leb_spec lo p), (Nat.ltb_spec p i), (Nat.ltb_spec p (i + 1));
          simpl; try lia; reflexivity.
  - rewrite for_range_empty by lia.
    destruct (Nat.leb_spec lo p), (Nat.ltb_spec p hi); simpl; try lia; exact HM.
Qed.

(** The loop over the columns, seen from one entry (p, q): the passes over
    the other columns keep it, the pass over column q turns it from [v]
    into [spec v]. *)
Lemma entry_by_columns n ldc (colbody : nat -> array -> array)
    (spec : scalar_t -> scalar_t) (C : array) p q :
  q < n ->
  (forall j M v, j < n -> j <> q ->
     entry_is ldc p q v (length C) M ->
     entry_is ldc p q v (length C) (colbody j M)) ->
  (forall M v,
     entry_is ldc p q v (length C) M ->
     entry_is ldc p q (spec v) (length C) (colbody q M)) ->
  entry_is ldc p q (spec (at_ C ldc p q)) (length C) (for_range 0 n colbody C).
Proof.
  intros Hq Hother Hown.
  cut (entry_is ldc p q
         (if q <? n then spec (at_ C ldc p q) else at_ C ldc p q)
         (length C) (for_range 0 n colbody C)).
  { destruct (Nat.ltb_spec q n); [tauto | lia]. }
  apply (for_range_inv (fun j0 M =>
           entry_is ldc p q
             (if q <? j0 then spec (at_ C ldc p q) else at_ C ldc p q)
             (length C) M)).
  - lia.
  - simpl. split; reflexivity.
  - intros j0 M Hj0 HM.
    destruct (Nat.ltb_spec q (j0 + 1)), (Nat.ltb_spec q j0); try lia.
    + apply Hother; [lia | lia | exact HM].
    + assert (j0 = q) as -> by lia. apply Hown. exact HM.
    + apply Hother; [lia | lia | exact HM].
Qed.

(** The four update loops write the triangle they are named after and
    nothing else. *)
Lemma upper_loops_keep_lower n k (A : array) lda (B : array) ldb beta ldc
    (alpha : scalar_t) (C : array) p q v :
  n <= ldc -> q < p -> p < n ->
  entry_is ldc p q v (length C) C ->
  entry_is ldc p q v (length C) (notrans_upper n k A lda B ldb beta ldc alpha C) /\
  entry_is ldc p q v (length C) (conjtrans_upper n k A lda B ldb beta ldc alpha C).
Proof.
  intros Hld Hqp Hp HC. unfold notrans_upper, conjtrans_upper.
  split; keep_entry.
Qed.

Lemma lower_loops_keep_upper n k (A : array) lda (B : array) ldb beta ldc
    (alpha : scalar_t) (C : array) p q v :
  n <= ldc -> p < q -> q < n ->
  entry_is ldc p q v (length C) C ->
  entry_is ldc p q v (length C) (notrans_lower n k A lda B ldb beta ldc alpha C) /\
  entry_is ldc p q v (length C) (conjtrans_lower n k A lda B ldb beta ldc alpha C).
Proof.
  intros Hld Hpq Hq HC. unfold notrans_lower, conjtrans_lower.
  split; keep_entry.
Qed.

(** The off-diagonal entries after the NoTrans loops. *)
Lemma notrans_upper_offdiag n k (A : array) lda (B : array) ldb beta ldc
    (alpha : scalar_t) (C : array) p q :
  n <= ldc -> holds C ldc n -> p < q -> q < n ->
  entry_is ldc p q (offdiag_notrans k alpha A lda B ldb beta p q (at_ C ldc p q))
    (length C) (notrans_upper n k A lda B ldb beta ldc alpha C).
Proof.
  intros Hld Hholds Hpq Hq. unfold notrans_upper.
  assert (p + q * ldc < length C) as Hplace
    by (apply (place_in_array C ldc n); assumption || lia).
  apply (entry_by_columns n ldc _
           (fun v => offdiag_notrans k alpha A lda B ldb beta p q v)).
  - exact Hq.
  - intros j M v Hj Hne HM. keep_entry.
  - intros M v HM. cbv beta zeta. unfold offdiag_notrans.
    match goal with
    | |- entry_is _ _ _ (for_range 0 k ?step ?init) _ _ =>
        apply (for_range_inv (fun l M' =>
                 entry_is ldc p q (for_range 0 l step init) (length C) M'))
    end.
    + lia.
    + apply entry_is_set; [lia | lia | lia |].
      pose proof (rows_pass ldc q 0 q (fun _ c => cscale beta c) (length C) M p v
                    ltac:(lia) ltac:(lia) Hplace HM) as Hrp.
      destruct (Nat.leb_spec 0 p), (Nat.ltb_spec p q); simpl in Hrp; try lia.
      exact Hrp.
    + intros l M' Hl HM'. cbv beta zeta.
      apply entry_is_set; [lia | lia | lia |].
      replace (l + 1) with (S l) by lia. rewrite for_range_last by lia.
      match type of HM' with
      | entry_is _ _ _ ?w _ _ =>
          pose proof (rows_pass ldc q 0 q
                        (fun i c => cadd c (offdiag_term A lda B ldb alpha i q l))
                        (length C) M' p w ltac:(lia) ltac:(lia) Hplace HM') as Hrp
      end.
      destruct (Nat.leb_spec 0 p), (Nat.ltb_spec p q); simpl in Hrp; try lia.
      exact Hrp.
Qed.

Lemma notrans_lower_offdiag n k (A : array) lda (B : array) ldb beta ldc
    (alpha : scalar_t) (C : array) p q :
  n <= ldc -> holds C ldc n -> q < p -> p < n ->
  entry_is ldc p q (offdiag_notrans k alpha A lda B ldb beta p q (at_ C ldc p q))
    (length C) (notrans_lower n k A lda B ldb beta ldc alpha C).
Proof.
  intros Hld Hholds Hqp Hp. unfold notrans_lower.
  assert (p + q * ldc < length C) as Hplace
    by (apply (place_in_array C ldc n); assumption || lia).
  apply (entry_by_columns n ldc _
           (fun v => offdiag_notrans k alpha A lda B ldb beta p q v)).
  - lia.
  - intros j M v Hj Hne HM. keep_entry.
  - intros M v HM. cbv beta zeta. unfold offdiag_notrans.
    match goal with
    | |- entry_is _ _ _ (for_range 0 k ?step ?init) _ _ =>
        apply (for_range_inv (fun l M' =>
                 entry_is ldc p q (for_range 0 l step init) (length C) M'))
    end.
    + lia.
    + match goal with
      | |- entry_is _ _ _ _ _ (for_range _ _ _ (set_ M _ _ _ ?d)) =>
          assert (entry_is ldc p q v (length C) (set_ M ldc q q d)) as Hset
            by (apply entry_is_set; [lia | lia | lia | exact HM]);
          pose proof (rows_pass ldc q (q + 1) n (fun _ c => cscale beta c)
                        (length C) (set_ M ldc q q d) p v
                        ltac:(lia) ltac:(lia) Hplace Hset) as Hrp
      end.
      destruct (Nat.leb_spec (q + 1) p), (Nat.ltb_spec p n); simpl in Hrp; try lia.
      exact Hrp.
    + intros l M' Hl HM'. cbv beta zeta.
      replace (l + 1) with (S l) by lia. rewrite for_range_last by lia.
      match goal with
      | |- entry_is _ _ _ _ _ (for_range _ _ _ (set_ M' _ _ _ ?d)) =>
          match type of HM' with
          | entry_is _ _ _ ?w _ _ =>
              assert (entry_is ldc p q w (length C) (set_ M' ldc q q d)) as Hset
                by (apply entry_is_set; [lia | lia | lia | exact HM']);
              pose proof (rows_pass ldc q (q + 1) n
                            (fun i c => cadd c (offdiag_term A lda B ldb alpha i q l))
                            (length C) (set_ M' ldc q q d) p w
                            ltac:(lia) ltac:(lia) Hplace Hset) as Hrp
          end
      end.
      destruct (Nat.leb_spec (q + 1) p), (Nat.ltb_spec p n); simpl in Hrp; try lia.
      exact Hrp.
Qed.

(** The off-diagonal entries after the ConjTrans loops. *)
Lemma conjtrans_upper_offdiag n k (A : array) lda (B : array) ldb beta ldc
    (alpha : scalar_t) (C : array) p q :
  n <= ldc -> holds C ldc n -> p < q -> q < n ->
  entry_is ldc p q
    (cadd (combined k A lda B ldb alpha p q) (cscale beta (at_ C ldc p q)))
    (length C) (conjtrans_upper n k A lda B ldb beta ldc alpha C).
Proof.
  intros Hld Hholds Hpq Hq. unfold conjtrans_upper.
  destruct (fill_columns n ldc (fun _ => 0) (fun j => j + 1)
              (fun i j c => conjtrans_entry k A lda B ldb beta alpha (i <? j) i j c) C)
    as [Hlen Hv]; [assumption | assumption | intros; lia |].
  split; [exact Hlen|]. rewrite Hv by lia.
  destruct (Nat.leb_spec 0 p), (Nat.ltb_spec p (q + 1)), (Nat.ltb_spec p q);
    simpl; try lia. reflexivity.
Qed.

Lemma conjtrans_lower_offdiag n k (A : array) lda (B : array) ldb beta ldc
    (alpha : scalar_t) (C : array) p q :
  n <= ldc -> holds C ldc n -> q < p -> p < n ->
  entry_is ldc p q
    (cadd (combined k A lda B ldb alpha p q) (cscale beta (at_ C ldc p q)))
    (length C) (conjtrans_lower n k A lda B ldb beta ldc alpha C).
Proof.
  intros Hld Hholds Hqp Hp. unfold conjtrans_lower.
  destruct (fill_columns n ldc (fun j => j) (fun _ => n)
              (fun i j c => conjtrans_entry k A lda B ldb beta alpha (j <? i) i j c) C)
    as [Hlen Hv]; [assumption | assumption | intros; lia |].
  split; [exact Hlen|]. rewrite Hv by lia.
  destruct (Nat.leb_spec q p), (Nat.ltb_spec p n), (Nat.ltb_spec q p);
    simpl; try lia. reflexivity.
Qed.

(** The off-diagonal entries after the scaling of lines 185-209. *)
Lemma scale_only_offdiag n beta ldc uplo (C : array) p q :
  n <= ldc -> holds C ldc n -> p < n -> q < n -> p <> q ->
  at_ (scale_only n beta ldc uplo C) ldc p q
    = match uplo with
      | Upper => if q <? p then cscale beta (at_ C ldc p q) else at_ C ldc p q
      | Lower | General =>
          if p <? q then cscale beta (at_ C ldc p q) else at_ C ldc p q
      end.
Proof.
  intros Hld Hholds Hp Hq Hne. unfold scale_only.
  assert (p + q * ldc < length C) as Hplace
    by (apply (place_in_array C ldc n); assumption).
  destruct uplo; simpl Uplo_eqb; simpl negb; cbv iota.
  - apply (entry_by_columns n ldc _
             (fun v => if q <? p then cscale beta v else v)); [exact Hq | |].
    + intros j M v Hj Hjq HM. keep_entry.
    + intros M v HM. cbv beta zeta.
      match goal with
      | |- entry_is _ _ _ _ _ (for_range _ _ _ (set_ M _ _ _ ?d)) =>
          assert (entry_is ldc p q v (length C) (set_ M ldc q q d)) as Hset
            by (apply entry_is_set; [lia | lia | lia | exact HM]);
          pose proof (rows_pass ldc q (q + 1) n (fun _ c => cscale beta c)
                        (length C) (set_ M ldc q q d) p v
                        ltac:(lia) ltac:(lia) Hplace Hset) as Hrp
      end.
      destruct (Nat.leb_spec (q + 1) p), (Nat.ltb_spec p n), (Nat.ltb_spec q p);
        simpl in Hrp; try lia; exact Hrp.
  - apply (entry_by_columns n ldc _
             (fun v => if p <? q then cscale beta v else v)); [exact Hq | |].
    + intros j M v Hj Hjq HM. keep_entry.
    + intros M v HM. cbv beta zeta.
      apply entry_is_set; [lia | lia | lia |].
      pose proof (rows_pass ldc q 0 q (fun _ c => cscale beta c) (length C) M p v
                    ltac:(lia) ltac:(lia) Hplace HM) as Hrp.
      destruct (Nat.leb_spec 0 p), (Nat.ltb_spec p q); simpl in Hrp; try lia;
        exact Hrp.
  - apply (entry_by_columns n ldc _
             (fun v => if p <? q then cscale beta v else v)); [exact Hq | |].
    + intros j M v Hj Hjq HM. keep_entry.
    + intros M v HM. cbv beta zeta.
      apply entry_is_set; [lia | lia | lia |].
      pose proof (rows_pass ldc q 0 q (fun _ c => cscale beta c) (length C) M p v
                    ltac:(lia) ltac:(lia) Hplace HM) as Hrp.
      destruct (Nat.leb_spec 0 p), (Nat.ltb_spec p q); simpl in Hrp; try lia;
        exact Hrp.
Qed.

(** *** What is read and what is written *)

Lemma set_lookup_other (M : array) ld i j v x :
  i + j * ld <> x -> set_ M ld i j v !! x = M !! x.
Proof. intros Hne. unfold set_. apply list_lookup_insert_ne. exact Hne. Qed.

Lemma her2k_body_writes_within n k (A : array) lda (B : array) ldb beta ldc
    (alpha : scalar_t) uplo trans (C : array) x :
  (forall i j, i < n -> j < n -> i + j * ldc <> x) ->
  her2k_body n k A lda B ldb beta ldc alpha uplo trans C !! x = C !! x.
Proof.
  intros Hx.
  unfold her2k_body, alpha_zero, alpha_nonzero, zero_fill, scale_only, mirror,
    notrans_upper, notrans_lower, conjtrans_upper, conjtrans_lower.
  repeat match goal with
         | |- context [if ?b then _ else _] => destruct b
         end;
    cbv beta zeta;
    repeat first
      [ reflexivity
      | assumption
      | match goal with
        | |- for_range _ _ _ _ !! x = ?v =>
            apply (for_range_keeps (fun M : array => M !! x = v));
            [| intros ? ? ? ?; cbv beta zeta]
        | |- set_ _ _ _ _ _ !! x = _ =>
            rewrite set_lookup_other by (apply Hx; lia)
        end ].
Qed.

(** X9: an accepted call writes inside the n-by-n matrix only: an array
    place that is no i + j ldc with i, j < n (the rows between n and ldc,
    whatever follows the last column) holds what it held. *)
Theorem her2k_writes_within :
  forall layout uplo trans n k (alpha : scalar_t) (A : array) lda (B : array) ldb
         beta (C : array) ldc C',
    her2k layout uplo trans n k alpha A lda B ldb beta C ldc = Some C' ->
    forall x, (forall i j, i < n -> j < n -> i + j * ldc <> x) ->
      C' !! x = C !! x.
Proof.
  intros * Hcall x Hx. apply her2k_accepted in Hcall as (_ & _ & ->).
  apply her2k_body_writes_within. exact Hx.
Qed.

Lemma for_range_ext {St : Type} (lo hi : nat) (body1 body2 : nat -> St -> St)
    (s1 s2 : St) :
  s1 = s2 ->
  (forall i s, lo <= i < hi -> body1 i s = body2 i s) ->
  for_range lo hi body1 s1 = for_range lo hi body2 s2.
Proof.
  intros -> Hext. destruct (le_lt_dec lo hi) as [Hle|Hgt].
  - apply (for_range_inv (fun i t => t = for_range lo i body2 s2)).
    + exact Hle.
    + rewrite for_range_empty by lia. reflexivity.
    + intros i t Hi ->. replace (i + 1) with (S i) by lia.
      rewrite for_range_last by lia. apply Hext. exact Hi.
  - rewrite !for_range_empty by lia. reflexivity.
Qed.

Section ReadsWithin.
Variables (n k : nat) (A1 A2 : array) (lda : nat) (B1 B2 : array) (ldb : nat).
Variables (beta : R) (ldc : nat) (alpha : scalar_t).

Lemma offdiag_term_ext i j l :
  same_on A1 A2 lda n k -> same_on B1 B2 ldb n k ->
  i < n -> j < n -> l < k ->
  offdiag_term A1 lda B1 ldb alpha i j l = offdiag_term A2 lda B2 ldb alpha i j l.
Proof.
  intros HA HB Hi Hj Hl. unfold offdiag_term. cbv zeta.
  rewrite (HA i l), (HA j l), (HB i l), (HB j l) by assumption. reflexivity.
Qed.

Lemma diag_term_ext j l :
  same_on A1 A2 lda n k -> same_on B1 B2 ldb n k ->
  j < n -> l < k ->
  diag_term A1 lda B1 ldb alpha j l = diag_term A2 lda B2 ldb alpha j l.
Proof.
  intros HA HB Hj Hl. unfold diag_term. cbv zeta.
  rewrite (HA j l), (HB j l) by assumption. reflexivity.
Qed.

Lemma conjtrans_entry_ext off i j c :
  same_on A1 A2 lda k n -> same_on B1 B2 ldb k n ->
  i < n -> j < n ->
  conjtrans_entry k A1 lda B1 ldb beta alpha off i j c
    = conjtrans_entry k A2 lda B2 ldb beta alpha off i j c.
Proof.
  intros HA HB Hi Hj.
  assert (sum1 k A1 lda B1 ldb i j = sum1 k A2 lda B2 ldb i j) as E1.
  { unfold sum1. apply for_range_ext; [reflexivity|]. intros l s Hl.
    rewrite (HA l i), (HB l j) by lia. reflexivity. }
  assert (sum2 k A1 lda B1 ldb i j = sum2 k A2 lda B2 ldb i j) as E2.
  { unfold sum2. apply for_range_ext; [reflexivity|]. intros l s Hl.
    rewrite (HB l i), (HA l j) by lia. reflexivity. }
  unfold conjtrans_entry, combined. rewrite E1, E2. reflexivity.
Qed.

(** Goes through two runs of the same loops side by side, down to the
    terms that read A and B. *)
Ltac side_by_side HA HB :=
  cbv beta zeta;
  repeat first
    [ reflexivity
    | match goal with
      | |- for_range _ _ _ _ = for_range _ _ _ _ =>
          apply for_range_ext; [| intros ? ? ?; cbv beta zeta]
      | |- set_ _ _ _ _ _ = set_ _ _ _ _ _ => f_equal
      | |- cadd _ _ = cadd _ _ => f_equal
      | |- cadd_real _ _ = cadd_real _ _ => f_equal
      | |- at_ _ _ _ _ = at_ _ _ _ _ => f_equal
      | |- offdiag_term _ _ _ _ _ _ _ _ = _ => apply offdiag_term_ext; [exact HA | exact HB | lia | lia | lia]
      | |- diag_term _ _ _ _ _ _ _ = _ => apply diag_term_ext; [exact HA | exact HB | lia | lia]
      | |- conjtrans_entry _ _ _ _ _ _ _ _ _ _ _ = _ =>
          rewrite (conjtrans_entry_ext _ _ _ _ HA HB) by lia
      end ].

Lemma notrans_loops_ext (C : array) :
  same_on A1 A2 lda n k -> same_on B1 B2 ldb n k ->
  notrans_upper n k A1 lda B1 ldb beta ldc alpha C
    = notrans_upper n k A2 lda B2 ldb beta ldc alpha C
  /\ notrans_lower n k A1 lda B1 ldb beta ldc alpha C
    = notrans_lower n k A2 lda B2 ldb beta ldc alpha C.
Proof.
  intros HA HB. unfold notrans_upper, notrans_lower.
  split; side_by_side HA HB.
Qed.

Lemma conjtrans_loops_ext (C : array) :
  same_on A1 A2 lda k n -> same_on B1 B2 ldb k n ->
  conjtrans_upper n k A1 lda B1 ldb beta ldc alpha C
    = conjtrans_upper n k A2 lda B2 ldb beta ldc alpha C
  /\ conjtrans_lower n k A1 lda B1 ldb beta ldc alpha C
    = conjtrans_lower n k A2 lda B2 ldb beta ldc alpha C.
Proof.
  intros HA HB. unfold conjtrans_upper, conjtrans_lower.
  split; side_by_side HA HB.
Qed.

Lemma her2k_body_ext uplo trans (C : array) :
  same_on A1 A2 lda (if Op_eqb trans NoTrans then n else k)
                    (if Op_eqb trans NoTrans then k else n) ->
  same_on B1 B2 ldb (if Op_eqb trans NoTrans then n else k)
                    (if Op_eqb trans NoTrans then k else n) ->
  her2k_body n k A1 lda B1 ldb beta ldc alpha uplo trans C
    = her2k_body n k A2 lda B2 ldb beta ldc alpha uplo trans C.
Proof.
  intros HA HB. unfold her2k_body, alpha_nonzero.
  destruct (n =? 0); [reflexivity|].
  destruct (ceqb alpha zero); [reflexivity|].
  destruct (Op_eqb trans NoTrans).
  - destruct (notrans_loops_ext C HA HB) as [-> ->]. reflexivity.
  - destruct (conjtrans_loops_ext C HA HB) as [-> ->]. reflexivity.
Qed.
End ReadsWithin.

(** X10: her2k reads A and B inside the matrix they hold only: n-by-k
    when the body runs its NoTrans branch, k-by-n when it runs its
    ConjTrans branch.  Two calls whose A and whose B agree there, and that
    agree on all else, fail together or return the same array. *)
Theorem her2k_reads_within :
  forall layout uplo trans n k (alpha : scalar_t) (A1 A2 : array) lda
         (B1 B2 : array) ldb beta (C : array) ldc,
    let rows := if Op_eqb (adapt_op layout trans) NoTrans then n else k in
    let cols := if Op_eqb (adapt_op layout trans) NoTrans then k else n in
    same_on A1 A2 lda rows cols ->
    same_on B1 B2 ldb rows cols ->
    her2k layout uplo trans n k alpha A1 lda B1 ldb beta C ldc
      = her2k layout uplo trans n k alpha A2 lda B2 ldb beta C ldc.
Proof.
  intros * HA HB. subst rows cols. unfold her2k.
  destruct layout, trans; simpl in *;
    repeat match goal with
           | |- context [blas_error_if ?c] => destruct c; simpl
           end;
    try reflexivity; f_equal; apply her2k_body_ext; assumption.
Qed.

Context `{!RealLaws R}.

Lemma reqb_refl (x : R) : reqb x x = true.
Proof. apply reqb_eq. reflexivity. Qed.

Lemma reqb_neq (x y : R) : x <> y -> reqb x y = false.
Proof.
  intros Hne. destruct (reqb x y) eqn:E; [|reflexivity].
  apply reqb_eq in E. contradiction.
Qed.

Lemma ceqb_zero_zero : ceqb (zero : scalar_t) zero = true.
Proof. unfold ceqb, zero, of_real; simpl. rewrite !reqb_refl. reflexivity. Qed.

Lemma conj_zero : conj (zero : scalar_t) = zero.
Proof. unfold conj, zero, of_real, r0; simpl. rewrite ropp_0. reflexivity. Qed.

Lemma conj_conj (z : scalar_t) : conj (conj z) = z.
Proof. destruct z as [x y]. unfold conj; simpl. rewrite ropp_ropp. reflexivity. Qed.

Lemma adapt_alpha_zero layout : ceqb (adapt_alpha layout (zero : scalar_t)) zero = true.
Proof.
  unfold adapt_alpha. destruct (Layout_eqb layout RowMajor);
    [rewrite conj_zero|]; apply ceqb_zero_zero.
Qed.

Lemma rceqb_one_zero : rceqb (r1 : R) zero = false.
Proof.
  unfold rceqb, zero, of_real, r1; simpl.
  rewrite (reqb_neq _ _ rlit_1_0). reflexivity.
Qed.

Lemma rceqb_one_one : rceqb (r1 : R) one = true.
Proof. unfold rceqb, one, of_real, r1; simpl. rewrite !reqb_refl. reflexivity. Qed.

(** With alpha zero the body is the scaling branch alone: A and B do not
    occur in it. *)
Lemma her2k_body_alpha_zero n k (A : array) lda (B : array) ldb beta ldc
    (alpha : scalar_t) uplo trans (C : array) :
  ceqb alpha zero = true ->
  her2k_body n k A lda B ldb beta ldc alpha uplo trans C
    = if n =? 0 then C else alpha_zero n beta ldc uplo C.
Proof. intros Hz. unfold her2k_body. rewrite Hz. reflexivity. Qed.

Lemma rceqb_zero_zero : rceqb (r0 : R) zero = true.
Proof. unfold rceqb, zero, of_real, r0; simpl. rewrite !reqb_refl. reflexivity. Qed.

(** X12: what an accepted call with alpha = 0 and beta = 0 leaves in C, for
    every n: the selector the body runs with decides, and it is the
    entries on and above the diagonal that are zeroed for Lower and for
    General, those on and below it for Upper. *)
Lemma her2k_zero_fill_entries layout uplo trans n k (A : array) lda (B : array) ldb
    (C : array) ldc C' :
  her2k layout uplo trans n k zero A lda B ldb r0 C ldc = Some C' ->
  holds C ldc n ->
  forall p q, p < n -> q < n ->
    at_ C' ldc p q
      = match adapt_uplo layout uplo with
        | Upper => if q <=? p then zero else at_ C ldc p q
        | Lower | General => if p <=? q then zero else at_ C ldc p q
        end.
Proof.
  intros Hcall Hholds p q Hp Hq.
  apply her2k_accepted in Hcall as (_ & Hld & ->).
  rewrite her2k_body_alpha_zero by apply adapt_alpha_zero.
  destruct (Nat.eqb_spec n 0) as [->|_]; [lia|].
  unfold alpha_zero. rewrite rceqb_zero_zero.
  apply zero_fill_entries; assumption.
Qed.

(** C2, as the code has it: with alpha = 0 and beta = 1 an accepted call
    returns C as it was given, every entry of it; the diagonal keeps
    whatever imaginary part it came with. *)
Theorem her2k_alpha_zero_beta_one :
  forall layout uplo trans n k (A : array) lda (B : array) ldb (C : array) ldc C',
    her2k layout uplo trans n k zero A lda B ldb r1 C ldc = Some C' ->
    C' = C.
Proof.
  intros * Hcall. apply her2k_accepted in Hcall as (_ & _ & ->).
  rewrite her2k_body_alpha_zero by apply adapt_alpha_zero.
  destruct (n =? 0); [reflexivity|].
  unfold alpha_zero. rewrite rceqb_one_zero, rceqb_one_one. reflexivity.
Qed.

(** C10: two accepted calls with alpha = 0 that agree on everything but
    A, lda, B and ldb return the same array. *)
Theorem her2k_alpha_zero_ignores_A_B :
  forall layout uplo trans n k beta (C : array) ldc
         (A1 : array) lda1 (B1 : array) ldb1 (A2 : array) lda2 (B2 : array) ldb2
         C1 C2,
    her2k layout uplo trans n k zero A1 lda1 B1 ldb1 beta C ldc = Some C1 ->
    her2k layout uplo trans n k zero A2 lda2 B2 ldb2 beta C ldc = Some C2 ->
    C1 = C2.
Proof.
  intros * Hcall1 Hcall2.
  apply her2k_accepted in Hcall1 as (_ & _ & ->).
  apply her2k_accepted in Hcall2 as (_ & _ & ->).
  rewrite !her2k_body_alpha_zero by apply adapt_alpha_zero.
  reflexivity.
Qed.
Lemma ceqb_eq (x y : scalar_t) : ceqb x y = true <-> x = y.
Proof.
  destruct x as [a b], y as [c d]. unfold ceqb; simpl.
  rewrite andb_true_iff, !reqb_eq. split.
  - intros [-> ->]. reflexivity.
  - intros [= -> ->]. split; reflexivity.
Qed.

Lemma adapt_alpha_nonzero layout (alpha : scalar_t) :
  alpha <> zero -> ceqb (adapt_alpha layout alpha) zero = false.
Proof.
  intros Hnz. destruct (ceqb (adapt_alpha layout alpha) zero) eqn:E; [|reflexivity].
  apply ceqb_eq in E. exfalso. apply Hnz.
  unfold adapt_alpha in E. destruct (Layout_eqb layout RowMajor); [|exact E].
  rewrite <- (conj_conj alpha), E. apply conj_zero.
Qed.

(** The diagonal when the update branch has run, mirror step included. *)
Lemma alpha_nonzero_diag n k (A : array) lda (B : array) ldb beta ldc
    (alpha : scalar_t) uplo trans (C : array) :
  n <= ldc -> holds C ldc n ->
  forall j, j < n ->
    entry_is ldc j j
      (if Op_eqb trans NoTrans
       then diag_notrans_spec k alpha A lda B ldb beta j (at_ C ldc j j)
       else diag_conjtrans_spec k alpha A lda B ldb beta j (at_ C ldc j j))
      (length C) (alpha_nonzero n k A lda B ldb beta ldc alpha uplo trans C).
Proof.
  intros Hld Hholds j Hj. unfold alpha_nonzero.
  match goal with
  | |- entry_is _ _ _ ?v _ (if _ then mirror _ _ ?K else _) =>
      assert (entry_is ldc j j v (length C) K) as [Hlen Hv]
  end.
  { destruct trans, uplo; simpl;
      first [ apply notrans_upper_diag | apply notrans_lower_diag
            | apply conjtrans_upper_diag | apply conjtrans_lower_diag ];
      assumption. }
  destruct (Uplo_eqb uplo General); [|split; assumption].
  match goal with
  | |- entry_is _ _ _ _ _ (mirror _ _ ?K) =>
      destruct (mirror_entries n ldc K) as [Hlm Hvm];
        [exact Hld | unfold holds in *; lia |]
  end.
  split; [lia|]. rewrite Hvm by assumption.
  rewrite Nat.ltb_irrefl. exact Hv.
Qed.

(** The diagonal entries an accepted call with alpha <> 0 leaves. *)
Lemma her2k_diag_value layout uplo trans n k (alpha : scalar_t) (A : array) lda
    (B : array) ldb beta (C : array) ldc C' :
  her2k layout uplo trans n k alpha A lda B ldb beta C ldc = Some C' ->
  holds C ldc n ->
  alpha <> zero ->
  forall j, j < n ->
    at_ C' ldc j j =
      if Op_eqb (adapt_op layout trans) NoTrans
      then diag_notrans_spec k (adapt_alpha layout alpha) A lda B ldb beta j
             (at_ C ldc j j)
      else diag_conjtrans_spec k (adapt_alpha layout alpha) A lda B ldb beta j
             (at_ C ldc j j).
Proof.
  intros Hcall Hholds Hnz j Hj.
  apply her2k_accepted in Hcall as (_ & Hld & ->).
  unfold her2k_body.
  destruct (Nat.eqb_spec n 0) as [->|_]; [lia|].
  rewrite adapt_alpha_nonzero by exact Hnz.
  apply (alpha_nonzero_diag n k A lda B ldb beta ldc (adapt_alpha layout alpha)
           (adapt_uplo layout uplo) (adapt_op layout trans) C Hld Hholds j Hj).
Qed.

Lemma her2k_diag_im layout uplo trans n k (alpha : scalar_t) (A : array) lda
    (B : array) ldb beta (C : array) ldc C' :
  her2k layout uplo trans n k alpha A lda B ldb beta C ldc = Some C' ->
  holds C ldc n ->
  alpha <> zero ->
  forall j, j < n -> im (at_ C' ldc j j) = r0.
Proof.
  intros Hcall Hholds Hnz j Hj.
  rewrite (her2k_diag_value _ _ _ _ _ _ _ _ _ _ _ _ _ _ Hcall Hholds Hnz j Hj).
  destruct (Op_eqb (adapt_op layout trans) NoTrans);
    [apply im_diag_notrans_spec | apply im_diag_conjtrans_spec].
Qed.

(** C5: after an accepted call with alpha <> 0 on an array that holds C,
    every diagonal entry has the real zero as imaginary part, and is: in
    the NoTrans branch, beta real(C(j,j)) with the terms
    2 real(A(j,l) alpha conj(B(j,l))) accumulated onto it; in the
    ConjTrans branch, real(alpha sum1 + conj(alpha) sum2) + beta real(C(j,j)).
    The branch and alpha are those the body runs with (for row-major
    storage, after the adaptation). *)
Theorem her2k_diagonal_real :
  forall layout uplo trans n k (alpha : scalar_t) (A : array) lda (B : array) ldb
         beta (C : array) ldc C',
    her2k layout uplo trans n k alpha A lda B ldb beta C ldc = Some C' ->
    holds C ldc n ->
    alpha <> zero ->
    forall j, j < n ->
      im (at_ C' ldc j j) = r0 /\
      at_ C' ldc j j =
        if Op_eqb (adapt_op layout trans) NoTrans
        then diag_notrans_spec k (adapt_alpha layout alpha) A lda B ldb beta j
               (at_ C ldc j j)
        else diag_conjtrans_spec k (adapt_alpha layout alpha) A lda B ldb beta j
               (at_ C ldc j j).
Proof.
  intros * Hcall Hholds Hnz j Hj. split.
  - apply (her2k_diag_im layout uplo trans n k alpha A lda B ldb beta C ldc C');
      assumption.
  - apply (her2k_diag_value layout uplo trans n k alpha A lda B ldb beta C ldc C');
      assumption.
Qed.

(** C3, as the code has it: an accepted call with uplo = General and
    alpha <> 0 on an array that holds C leaves a Hermitian matrix:
    C(i,j) = conj(C(j,i)) off the diagonal, and a diagonal with the real
    zero as imaginary part. *)
Theorem her2k_general_hermitian :
  forall layout trans n k (alpha : scalar_t) (A : array) lda (B : array) ldb
         beta (C : array) ldc C',
    her2k layout General trans n k alpha A lda B ldb beta C ldc = Some C' ->
    holds C ldc n ->
    alpha <> zero ->
    hermitian C' ldc n.
Proof.
  intros * Hcall Hholds Hnz.
  assert (forall j, j < n -> im (at_ C' ldc j j) = r0) as Hdiag.
  { intros j Hj.
    apply (her2k_diag_im layout General trans n k alpha A lda B ldb beta C ldc C');
      assumption. }
  split; [|exact Hdiag].
  intros i j Hi Hj Hne.
  apply her2k_accepted in Hcall as (_ & Hld & ->).
  unfold her2k_body.
  destruct (Nat.eqb_spec n 0) as [->|_]; [lia|].
  rewrite adapt_alpha_nonzero by exact Hnz.
  assert (adapt_uplo layout General = General) as -> by (destruct layout; reflexivity).
  unfold alpha_nonzero. simpl Uplo_eqb. cbv iota. simpl negb. cbv iota.
  match goal with
  | |- at_ (mirror _ _ ?K) _ _ _ = _ =>
      assert (length K = length C) as Hlen
  end.
  { assert (0 < n) as H0 by lia.
    destruct (Op_eqb (adapt_op layout trans) NoTrans).
    - apply (notrans_upper_diag n k A lda B ldb beta ldc _ C Hld Hholds 0 H0).
    - apply (conjtrans_upper_diag n k A lda B ldb beta ldc _ C Hld Hholds 0 H0). }
  match goal with
  | |- at_ (mirror _ _ ?K) _ _ _ = _ =>
      destruct (mirror_entries n ldc K) as [_ Hm];
        [exact Hld | unfold holds in *; lia |]
  end.
  rewrite !Hm by assumption.
  destruct (Nat.ltb_spec j i), (Nat.ltb_spec i j); try lia.
  - reflexivity.
  - rewrite conj_conj. reflexivity.
Qed.
(** *** Beyond the diagonal *)

(** An accepted call with alpha <> 0 and n > 0 is the update branch. *)
Lemma her2k_updates layout uplo trans n k (alpha : scalar_t) (A : array) lda
    (B : array) ldb beta (C : array) ldc C' :
  her2k layout uplo trans n k alpha A lda B ldb beta C ldc = Some C' ->
  alpha <> zero -> 0 < n ->
  n <= ldc /\ trans <> Trans /\
  C' = alpha_nonzero n k A lda B ldb beta ldc (adapt_alpha layout alpha)
         (adapt_uplo layout uplo) (adapt_op layout trans) C.
Proof.
  intros Hcall Hnz Hn.
  apply her2k_accepted in Hcall as (Ht & Hld & ->).
  split; [exact Hld|]. split; [exact Ht|].
  unfold her2k_body.
  destruct (Nat.eqb_spec n 0) as [->|_]; [lia|].
  rewrite adapt_alpha_nonzero by exact Hnz. reflexivity.
Qed.

(** The entries of the triangle the update loops write, off the diagonal. *)
Lemma alpha_nonzero_offdiag n k (A : array) lda (B : array) ldb beta ldc
    (alpha : scalar_t) uplo trans (C : array) p q :
  n <= ldc -> holds C ldc n -> p < n -> q < n ->
  match uplo with Lower => q < p | Upper | General => p < q end ->
  at_ (alpha_nonzero n k A lda B ldb beta ldc alpha uplo trans C) ldc p q
    = if Op_eqb trans NoTrans
      then offdiag_notrans k alpha A lda B ldb beta p q (at_ C ldc p q)
      else cadd (combined k A lda B ldb alpha p q) (cscale beta (at_ C ldc p q)).
Proof.
  intros Hld Hholds Hp Hq Htri. unfold alpha_nonzero.
  destruct uplo; simpl Uplo_eqb; simpl negb; cbv iota.
  - destruct (Op_eqb trans NoTrans);
      [apply notrans_upper_offdiag | apply conjtrans_upper_offdiag]; assumption.
  - destruct (Op_eqb trans NoTrans);
      [apply notrans_lower_offdiag | apply conjtrans_lower_offdiag]; assumption.
  - match goal with
    | |- at_ (mirror _ _ ?K) _ _ _ = ?v =>
        assert (entry_is ldc p q v (length C) K) as [Hlen Hv]
    end.
    { destruct (Op_eqb trans NoTrans);
        [apply notrans_upper_offdiag | apply conjtrans_upper_offdiag]; assumption. }
    match goal with
    | |- at_ (mirror _ _ ?K) _ _ _ = _ =>
        destruct (mirror_entries n ldc K) as [_ Hm];
          [exact Hld | unfold holds in *; lia |]
    end.
    rewrite Hm by assumption.
    destruct (Nat.ltb_spec q p); [lia | exact Hv].
Qed.

(** The other triangle, when one triangle is selected. *)
Lemma alpha_nonzero_frame n k (A : array) lda (B : array) ldb beta ldc
    (alpha : scalar_t) uplo trans (C : array) p q :
  n <= ldc -> p < n -> q < n ->
  match uplo with Lower => p < q | Upper => q < p | General => False end ->
  at_ (alpha_nonzero n k A lda B ldb beta ldc alpha uplo trans C) ldc p q
    = at_ C ldc p q.
Proof.
  intros Hld Hp Hq Htri. unfold alpha_nonzero.
  assert (entry_is ldc p q (at_ C ldc p q) (length C) C) as HC
    by (split; reflexivity).
  destruct uplo; [| |contradiction]; simpl.
  - destruct (upper_loops_keep_lower n k A lda B ldb beta ldc alpha C p q _
                Hld Htri Hp HC) as [[_ H1] [_ H2]].
    destruct (Op_eqb trans NoTrans); assumption.
  - destruct (lower_loops_keep_upper n k A lda B ldb beta ldc alpha C p q _
                Hld Htri Hq HC) as [[_ H1] [_ H2]].
    destruct (Op_eqb trans NoTrans); assumption.
Qed.

(** Below the diagonal of a General result sits the conjugate of what is
    above it. *)
Lemma alpha_nonzero_general_lower n k (A : array) lda (B : array) ldb beta ldc
    (alpha : scalar_t) trans (C : array) p q :
  n <= ldc -> holds C ldc n -> q < p -> p < n ->
  at_ (alpha_nonzero n k A lda B ldb beta ldc alpha General trans C) ldc p q
    = conj (at_ (alpha_nonzero n k A lda B ldb beta ldc alpha General trans C) ldc q p).
Proof.
  intros Hld Hholds Hqp Hp. unfold alpha_nonzero. simpl Uplo_eqb. cbv iota.
  simpl negb. cbv iota.
  match goal with
  | |- at_ (mirror _ _ ?K) _ _ _ = _ => assert (length K = length C) as Hlen
  end.
  { assert (0 < n) as H0 by lia.
    destruct (Op_eqb trans NoTrans).
    - apply (notrans_upper_diag n k A lda B ldb beta ldc _ C Hld Hholds 0 H0).
    - apply (conjtrans_upper_diag n k A lda B ldb beta ldc _ C Hld Hholds 0 H0). }
  match goal with
  | |- at_ (mirror _ _ ?K) _ _ _ = _ =>
      destruct (mirror_entries n ldc K) as [_ Hm];
        [exact Hld | unfold holds in *; lia |]
  end.
  rewrite !Hm by lia.
  destruct (Nat.ltb_spec q p), (Nat.ltb_spec p q); try lia. reflexivity.
Qed.

(** X4: the off-diagonal entries of the triangle an accepted call with
    alpha <> 0 updates (above the diagonal for Upper and General, below it
    for Lower, as the body is run).  In the NoTrans branch entry (i, j) is
    beta C(i,j) with the terms A(i,l) alpha conj(B(j,l)) +
    B(i,l) conj(alpha A(j,l)) added for l = 0 .. k-1; in the ConjTrans
    branch it is alpha sum1 + conj(alpha) sum2 + beta C(i,j). *)
Theorem her2k_offdiagonal :
  forall layout uplo trans n k (alpha : scalar_t) (A : array) lda (B : array) ldb
         beta (C : array) ldc C',
    her2k layout uplo trans n k alpha A lda B ldb beta C ldc = Some C' ->
    holds C ldc n ->
    alpha <> zero ->
    forall p q, p < n -> q < n ->
      match adapt_uplo layout uplo with
      | Lower => q < p
      | Upper | General => p < q
      end ->
      at_ C' ldc p q =
        if Op_eqb (adapt_op layout trans) NoTrans
        then offdiag_notrans k (adapt_alpha layout alpha) A lda B ldb beta p q
               (at_ C ldc p q)
        else cadd (combined k A lda B ldb (adapt_alpha layout alpha) p q)
               (cscale beta (at_ C ldc p q)).
Proof.
  intros * Hcall Hholds Hnz p q Hp Hq Htri.
  apply her2k_updates in Hcall as (Hld & _ & ->); [| exact Hnz | lia].
  apply alpha_nonzero_offdiag; assumption.
Qed.

(** X5: with Upper or Lower in force and alpha <> 0, an accepted call
    leaves every entry strictly inside the other triangle as it was. *)
Theorem her2k_other_triangle_untouched :
  forall layout uplo trans n k (alpha : scalar_t) (A : array) lda (B : array) ldb
         beta (C : array) ldc C',
    her2k layout uplo trans n k alpha A lda B ldb beta C ldc = Some C' ->
    alpha <> zero ->
    forall p q, p < n -> q < n ->
      match adapt_uplo layout uplo with
      | Lower => p < q
      | Upper => q < p
      | General => False
      end ->
      at_ C' ldc p q = at_ C ldc p q.
Proof.
  intros * Hcall Hnz p q Hp Hq Htri.
  apply her2k_updates in Hcall as (Hld & _ & ->); [| exact Hnz | lia].
  apply alpha_nonzero_frame; assumption.
Qed.

(** X6: with uplo = General and alpha <> 0, what an accepted call leaves
    in the n-by-n matrix does not depend on what C held below the diagonal:
    two calls that differ only there return the same matrix. *)
Theorem her2k_general_ignores_lower :
  forall layout trans n k (alpha : scalar_t) (A : array) lda (B : array) ldb
         beta (C1 C2 : array) ldc C1' C2',
    her2k layout General trans n k alpha A lda B ldb beta C1 ldc = Some C1' ->
    her2k layout General trans n k alpha A lda B ldb beta C2 ldc = Some C2' ->
    holds C1 ldc n -> holds C2 ldc n ->
    alpha <> zero ->
    same_upper C1 C2 ldc n ->
    forall p q, p < n -> q < n -> at_ C1' ldc p q = at_ C2' ldc p q.
Proof.
  intros * Hcall1 Hcall2 Hh1 Hh2 Hnz Hsame.
  assert (forall p q, p <= q -> q < n -> at_ C1' ldc p q = at_ C2' ldc p q) as Hup.
  { intros p q Hpq Hq.
    destruct (decide (p = q)) as [->|Hne].
    - rewrite (her2k_diag_value _ _ _ _ _ _ _ _ _ _ _ _ _ _ Hcall1 Hh1 Hnz q Hq).
      rewrite (her2k_diag_value _ _ _ _ _ _ _ _ _ _ _ _ _ _ Hcall2 Hh2 Hnz q Hq).
      rewrite (Hsame q q) by lia. reflexivity.
    - apply her2k_updates in Hcall1 as (Hld & _ & ->); [| exact Hnz | lia].
      apply her2k_updates in Hcall2 as (_ & _ & ->); [| exact Hnz | lia].
      assert (adapt_uplo layout General = General) as -> by (destruct layout; reflexivity).
      rewrite !alpha_nonzero_offdiag by (assumption || simpl; lia).
      rewrite (Hsame p q) by lia. reflexivity. }
  intros p q Hp Hq.
  destruct (le_lt_dec p q) as [Hpq|Hqp]; [apply Hup; assumption|].
  specialize (Hup q p ltac:(lia) Hp).
  apply her2k_updates in Hcall1 as (Hld & _ & ->); [| exact Hnz | lia].
  apply her2k_updates in Hcall2 as (_ & _ & ->); [| exact Hnz | lia].
  assert (adapt_uplo layout General = General) as E by (destruct layout; reflexivity).
  rewrite E in *.
  rewrite (alpha_nonzero_general_lower n k A lda B ldb beta ldc _ _ C1) by assumption.
  rewrite (alpha_nonzero_general_lower n k A lda B ldb beta ldc _ _ C2) by assumption.
  rewrite Hup. reflexivity.
Qed.

(** *** The scaling branch *)

Lemma scale_only_diag n beta ldc uplo (C : array) :
  n <= ldc -> holds C ldc n ->
  forall j, j < n ->
    entry_is ldc j j (of_real (rmul beta (real (at_ C ldc j j)))) (length C)
      (scale_only n beta ldc uplo C).
Proof.
  intros Hld Hholds. unfold scale_only.
  destruct uplo; simpl Uplo_eqb; simpl negb; cbv iota;
    apply (diag_by_columns n ldc _ (fun _ v => of_real (rmul beta (real v)))).
  - intros j M p v Hj Hp Hne HM. keep_entry.
  - intros j M v Hj [HlM HvM]. cbv beta zeta.
    assert (j + j * ldc < length C) as Hplace
      by (apply (place_in_array C ldc n); assumption).
    rewrite HvM.
    match goal with
    | |- entry_is _ _ _ ?w _ (for_range _ _ _ ?M1) =>
        assert (entry_is ldc j j w (length C) M1) as Hset
          by (apply entry_is_set_same; assumption)
    end.
    keep_entry.
  - intros j M p v Hj Hp Hne HM. keep_entry.
  - intros j M v Hj HM. cbv beta zeta.
    assert (j + j * ldc < length C) as Hplace
      by (apply (place_in_array C ldc n); assumption).
    match goal with
    | |- entry_is _ _ _ _ _ (set_ ?M1 _ _ _ _) =>
        assert (entry_is ldc j j v (length C) M1) as [Hl Hv] by keep_entry
    end.
    rewrite Hv. apply entry_is_set_same; assumption.
  - intros j M p v Hj Hp Hne HM. keep_entry.
  - intros j M v Hj HM. cbv beta zeta.
    assert (j + j * ldc < length C) as Hplace
      by (apply (place_in_array C ldc n); assumption).
    match goal with
    | |- entry_is _ _ _ _ _ (set_ ?M1 _ _ _ _) =>
        assert (entry_is ldc j j v (length C) M1) as [Hl Hv] by keep_entry
    end.
    rewrite Hv. apply entry_is_set_same; assumption.
Qed.

(** X7: with alpha = 0 and beta neither 0 nor 1, an accepted call sets
    every diagonal entry to beta real(C(j,j)), with the real zero as
    imaginary part, whichever triangle is selected. *)
Theorem her2k_scaling_diagonal :
  forall layout uplo trans n k (A : array) lda (B : array) ldb beta
         (C : array) ldc C',
    her2k layout uplo trans n k zero A lda B ldb beta C ldc = Some C' ->
    holds C ldc n ->
    beta <> r0 -> beta <> r1 ->
    forall j, j < n ->
      at_ C' ldc j j = of_real (rmul beta (real (at_ C ldc j j))).
Proof.
  intros * Hcall Hholds Hb0 Hb1 j Hj.
  apply her2k_accepted in Hcall as (_ & Hld & ->).
  rewrite her2k_body_alpha_zero by apply adapt_alpha_zero.
  destruct (Nat.eqb_spec n 0) as [->|_]; [lia|].
  unfold alpha_zero.
  assert (rceqb beta zero = false) as ->.
  { pose proof (reqb_neq _ _ Hb0) as E. unfold r0 in E.
    unfold rceqb, zero, of_real; simpl. rewrite E. reflexivity. }
  assert (rceqb beta one = false) as ->.
  { pose proof (reqb_neq _ _ Hb1) as E. unfold r1 in E.
    unfold rceqb, one, of_real; simpl. rewrite E. reflexivity. }
  simpl. apply scale_only_diag; assumption.
Qed.

(** X8: the row-major rewriting undoes itself: a column-major call is the
    row-major call on the same arrays with the triangle swapped, the
    operation flipped and alpha conjugated, so rewriting twice gives the
    call one started from. *)
Theorem her2k_colmajor_as_rowmajor :
  forall uplo n k (alpha : scalar_t) (A : array) lda (B : array) ldb beta
         (C : array) ldc,
    her2k ColMajor uplo NoTrans n k alpha A lda B ldb beta C ldc
      = her2k RowMajor (swap_uplo uplo) (flip_op NoTrans) n k (conj alpha)
          A lda B ldb beta C ldc
    /\ her2k ColMajor uplo ConjTrans n k alpha A lda B ldb beta C ldc
      = her2k RowMajor (swap_uplo uplo) (flip_op ConjTrans) n k (conj alpha)
          A lda B ldb beta C ldc.
Proof.
  intros. split; unfold her2k; destruct uplo; simpl;
    rewrite conj_conj; reflexivity.
Qed.

(** X11: with alpha = 0 and beta neither 0 nor 1, an accepted call scales
    by beta the entries strictly above the diagonal when the selector the
    body runs with is Lower or General, those strictly below it when the
    selector is Upper, and leaves the other off-diagonal entries as they
    were. *)
Theorem her2k_scaling_offdiagonal :
  forall layout uplo trans n k (A : array) lda (B : array) ldb beta
         (C : array) ldc C',
    her2k layout uplo trans n k zero A lda B ldb beta C ldc = Some C' ->
    holds C ldc n ->
    beta <> r0 -> beta <> r1 ->
    forall p q, p < n -> q < n -> p <> q ->
      at_ C' ldc p q
        = match adapt_uplo layout uplo with
          | Upper => if q <? p then cscale beta (at_ C ldc p q) else at_ C ldc p q
          | Lower | General =>
              if p <? q then cscale beta (at_ C ldc p q) else at_ C ldc p q
          end.
Proof.
  intros * Hcall Hholds Hb0 Hb1 p q Hp Hq Hne.
  apply her2k_accepted in Hcall as (_ & Hld & ->).
  rewrite her2k_body_alpha_zero by apply adapt_alpha_zero.
  destruct (Nat.eqb_spec n 0) as [->|_]; [lia|].
  unfold alpha_zero.
  assert (rceqb beta zero = false) as ->.
  { pose proof (reqb_neq _ _ Hb0) as E. unfold r0 in E.
    unfold rceqb, zero, of_real; simpl. rewrite E. reflexivity. }
  assert (rceqb beta one = false) as ->.
  { pose proof (reqb_neq _ _ Hb1) as E. unfold r1 in E.
    unfold rceqb, one, of_real; simpl. rewrite E. reflexivity. }
  simpl. apply scale_only_offdiag; assumption.
Qed.

End Generic.

(** *** Runs on Gaussian integers *)
Section OnIntegers.
Local Open Scope Z_scope.

(** C1, at n = 2 with C = [5 7; 6 8] stored by columns, alpha = 0 and
    beta = 0.  With uplo = Lower the call zeroes C(0,0), C(0,1), C(1,1) and
    keeps C(1,0) = 6: the upper triangle instead of the lower.  With
    uplo = Upper it zeroes C(0,0), C(1,0), C(1,1) and keeps C(0,1) = 7.  With
    uplo = General it zeroes the upper triangle only and keeps C(1,0). *)
Theorem her2k_zero_fill_wrong_triangle :
  her2k ColMajor Lower NoTrans 2 1 (zr 0) [zr 0; zr 0] 2 [zr 0; zr 0] 2 0
    [zr 5; zr 6; zr 7; zr 8] 2 = Some [zr 0; zr 6; zr 0; zr 0]
  /\ her2k ColMajor Upper NoTrans 2 1 (zr 0) [zr 0; zr 0] 2 [zr 0; zr 0] 2 0
    [zr 5; zr 6; zr 7; zr 8] 2 = Some [zr 0; zr 0; zr 7; zr 0]
  /\ her2k ColMajor General NoTrans 2 1 (zr 0) [zr 0; zr 0] 2 [zr 0; zr 0] 2 0
    [zr 5; zr 6; zr 7; zr 8] 2 = Some [zr 0; zr 6; zr 0; zr 0].
Proof. repeat split; reflexivity. Qed.

(** C2 fails as stated: with alpha = 0 and beta = 1 the 1-by-1 matrix
    C = [i] comes back as [i]; its diagonal entry is not the real part of
    the input. *)
Lemma her2k_beta_one_keeps_imaginary_diagonal :
  her2k ColMajor Upper NoTrans 1 0 zero [] 1 [] 1 r1 [Cplx 0 1] 1
    = Some [Cplx 0 1]
  /\ at_ [Cplx 0 1] 1 0 0 <> of_real (real (Cplx 0 1)).
Proof. split; [reflexivity | discriminate]. Qed.

Lemma her2k_alpha_zero_beta_one_witness :
  her2k RowMajor Lower ConjTrans 2 1 zero [zr 1; zr 2] 2 [zr 3; zr 4] 2 r1
    [Cplx 5 1; zr 6; zr 7; zr 8] 2 = Some [Cplx 5 1; zr 6; zr 7; zr 8]
  /\ [Cplx 5 1; zr 6; zr 7; zr 8] = [Cplx 5 1; zr 6; zr 7; zr 8].
Proof.
  split; [reflexivity|].
  apply (her2k_alpha_zero_beta_one RowMajor Lower ConjTrans 2 1
           [zr 1; zr 2] 2 [zr 3; zr 4] 2 [Cplx 5 1; zr 6; zr 7; zr 8] 2).
  reflexivity.
Defined.

(** C3 fails as stated: with uplo = General, alpha = 0 and beta = 1 the
    matrix C = [0 0; 1 0] comes back as it was, and C(1,0) = 1 is not the
    conjugate of C(0,1) = 0. *)
Lemma her2k_general_not_hermitian :
  her2k ColMajor General NoTrans 2 0 zero [] 2 [] 2 r1
    [zr 0; zr 1; zr 0; zr 0] 2 = Some [zr 0; zr 1; zr 0; zr 0]
  /\ ~ hermitian [zr 0; zr 1; zr 0; zr 0] 2 2.
Proof.
  split; [reflexivity|].
  intros [Hoff _].
  specialize (Hoff 1%nat 0%nat ltac:(lia) ltac:(lia) ltac:(lia)).
  discriminate Hoff.
Qed.

Lemma her2k_general_hermitian_witness :
  her2k ColMajor General NoTrans 2 1 (Cplx 1 2) [Cplx 1 1; zr 3] 2
    [Cplx 0 1; Cplx 1 (-1)] 2 3 [Cplx 5 1; zr 6; zr 7; zr 8] 2
    = Some [zr 21; Cplx 23 (-5); Cplx 23 5; zr 18]
  /\ hermitian [zr 21; Cplx 23 (-5); Cplx 23 5; zr 18] 2 2.
Proof.
  split; [reflexivity|].
  apply (her2k_general_hermitian ColMajor NoTrans 2 1 (Cplx 1 2) [Cplx 1 1; zr 3] 2
           [Cplx 0 1; Cplx 1 (-1)] 2 3 [Cplx 5 1; zr 6; zr 7; zr 8] 2).
  - reflexivity.
  - unfold holds. simpl. lia.
  - discriminate.
Defined.

Lemma her2k_diagonal_real_witness :
  im (at_ [zr 13; zr 6; Cplx 19 5; zr 42] 2 1 1) = 0
  /\ at_ [zr 13; zr 6; Cplx 19 5; zr 42] 2 1 1 = zr 42.
Proof.
  assert (holds [Cplx 5 1; zr 6; zr 7; zr 8] 2 2) as Hholds
    by (unfold holds; simpl; lia).
  assert (Cplx 1 2 <> zero) as Hnz by discriminate.
  exact (her2k_diagonal_real RowMajor Lower ConjTrans 2 1 (Cplx 1 2)
           [Cplx 1 1; zr 3] 2 [Cplx 0 1; Cplx 1 (-1)] 2 3
           [Cplx 5 1; zr 6; zr 7; zr 8] 2
           [zr 13; zr 6; Cplx 19 5; zr 42]
           eq_refl Hholds Hnz 1%nat (le_n 2)).
Defined.

Lemma her2k_rowmajor_as_colmajor_witness :
  her2k RowMajor Lower NoTrans 2 1 (Cplx 1 2) [Cplx 1 1; zr 3] 1
    [Cplx 0 1; Cplx 1 (-1)] 1 3 [Cplx 5 1; zr 6; zr 7; zr 8] 2
    = Some [zr 21; zr 6; Cplx 23 (-5); zr 18]
  /\ her2k ColMajor Upper ConjTrans 2 1 (Cplx 1 (-2)) [Cplx 1 1; zr 3] 1
    [Cplx 0 1; Cplx 1 (-1)] 1 3 [Cplx 5 1; zr 6; zr 7; zr 8] 2
    = Some [zr 21; zr 6; Cplx 23 (-5); zr 18].
Proof.
  split; [reflexivity|].
  exact (eq_trans
           (eq_sym (proj1 (her2k_rowmajor_as_colmajor 2 1 (Cplx 1 2)
                             [Cplx 1 1; zr 3] 1 [Cplx 0 1; Cplx 1 (-1)] 1 3
                             [Cplx 5 1; zr 6; zr 7; zr 8] 2)))
           eq_refl).
Defined.

Lemma her2k_alpha_zero_ignores_A_B_witness :
  exists C1 C2,
    her2k ColMajor Upper NoTrans 2 1 zero [zr 1; zr 2] 2 [zr 3; zr 4] 2 3
      [zr 5; zr 6; zr 7; zr 8] 2 = Some C1
    /\ her2k ColMajor Upper NoTrans 2 1 zero [zr 9; Cplx 1 1; zr 0] 3 [] 5 3
      [zr 5; zr 6; zr 7; zr 8] 2 = Some C2
    /\ C1 = C2.
Proof.
  eexists. eexists. split; [reflexivity|]. split; [reflexivity|].
  apply (her2k_alpha_zero_ignores_A_B ColMajor Upper NoTrans 2 1 3
           [zr 5; zr 6; zr 7; zr 8] 2
           [zr 1; zr 2] 2 [zr 3; zr 4] 2 [zr 9; Cplx 1 1; zr 0] 3 [] 5);
    reflexivity.
Defined.

(** The scenario n = 2, k = 1, column-major, Upper, NoTrans, alpha = 1,
    beta = 0, A = [1; 0], B = [0; 1] in exact arithmetic, where 0 x = 0
    for every x: whatever Gaussian integers C held, the call leaves
    C(0,0) = 0, C(0,1) = 1, C(1,1) = 0, and C(1,0) as it was. *)
Lemma her2k_scenario_exact :
  forall c00 c10 c01 c11 : complex Z,
    her2k ColMajor Upper NoTrans 2 1 (zr 1) [zr 1; zr 0] 2 [zr 0; zr 1] 2 0
      [c00; c10; c01; c11] 2
    = Some [zr 0; c10; zr 1; zr 0].
Proof.
  intros [a00 b00] [a10 b10] [a01 b01] [a11 b11].
  cbv - [Z.mul Z.add Z.sub Z.opp].
  repeat f_equal; lia.
Qed.

Lemma her2k_order_zero_witness :
  her2k ColMajor Upper NoTrans 0 3 (zr 1) [] 0 [] 0 2 [Cplx 5 1] 0
    = Some [Cplx 5 1]
  /\ [Cplx 5 1] = [Cplx 5 1].
Proof.
  split; [reflexivity|].
  exact (her2k_order_zero ColMajor Upper NoTrans 3 (zr 1) [] 0 [] 0 2
           [Cplx 5 1] 0 [Cplx 5 1] eq_refl).
Defined.

Lemma her2k_offdiagonal_witness :
  at_ [zr 13; Cplx 16 5; zr 7; zr 42] 2 1 0 = Cplx 16 5.
Proof.
  assert (holds [Cplx 5 1; zr 6; zr 7; zr 8] 2 2) as Hholds
    by (unfold holds; simpl; lia).
  assert (Cplx 1 2 <> zero) as Hnz by discriminate.
  exact (her2k_offdiagonal ColMajor Lower ConjTrans 2 1 (Cplx 1 2)
           [Cplx 1 1; zr 3] 1 [Cplx 0 1; Cplx 1 (-1)] 1 3
           [Cplx 5 1; zr 6; zr 7; zr 8] 2 [zr 13; Cplx 16 5; zr 7; zr 42]
           eq_refl Hholds Hnz 1%nat 0%nat (le_n 2) (le_S 1 1 (le_n 1)) (le_n 1)).
Defined.

Lemma her2k_other_triangle_untouched_witness :
  at_ [zr 21; zr 6; Cplx 23 5; zr 18] 2 1 0 = zr 6.
Proof.
  assert (Cplx 1 2 <> zero) as Hnz by discriminate.
  exact (her2k_other_triangle_untouched ColMajor Upper NoTrans 2 1 (Cplx 1 2)
           [Cplx 1 1; zr 3] 2 [Cplx 0 1; Cplx 1 (-1)] 2 3
           [Cplx 5 1; zr 6; zr 7; zr 8] 2 [zr 21; zr 6; Cplx 23 5; zr 18]
           eq_refl Hnz 1%nat 0%nat (le_n 2) (le_S 1 1 (le_n 1)) (le_n 1)).
Defined.

Lemma her2k_general_ignores_lower_witness :
  exists C1' C2',
    her2k ColMajor General NoTrans 2 1 (Cplx 1 2) [Cplx 1 1; zr 3] 2
      [Cplx 0 1; Cplx 1 (-1)] 2 3 [Cplx 5 1; zr 6; zr 7; zr 8] 2 = Some C1'
    /\ her2k ColMajor General NoTrans 2 1 (Cplx 1 2) [Cplx 1 1; zr 3] 2
      [Cplx 0 1; Cplx 1 (-1)] 2 3 [Cplx 5 1; Cplx 100 (-3); zr 7; zr 8] 2 = Some C2'
    /\ at_ C1' 2 1 0 = at_ C2' 2 1 0.
Proof.
  eexists. eexists. split; [reflexivity|]. split; [reflexivity|].
  apply (her2k_general_ignores_lower ColMajor NoTrans 2 1 (Cplx 1 2)
           [Cplx 1 1; zr 3] 2 [Cplx 0 1; Cplx 1 (-1)] 2 3
           [Cplx 5 1; zr 6; zr 7; zr 8] [Cplx 5 1; Cplx 100 (-3); zr 7; zr 8] 2).
  - reflexivity.
  - reflexivity.
  - unfold holds; simpl; lia.
  - unfold holds; simpl; lia.
  - discriminate.
  - intros p q Hpq Hq.
    assert (q = 0 \/ q = 1)%nat as [-> | ->] by lia.
    + assert (p = 0)%nat as -> by lia. reflexivity.
    + assert (p = 0 \/ p = 1)%nat as [-> | ->] by lia; reflexivity.
  - lia.
  - lia.
Defined.

Lemma her2k_scaling_diagonal_witness :
  at_ [zr 15; zr 18; zr 7; zr 24] 2 1 1 = zr 24.
Proof.
  assert (holds [Cplx 5 1; zr 6; zr 7; Cplx 8 2] 2 2) as Hholds
    by (unfold holds; simpl; lia).
  assert ((3 : Z) <> r0) as Hb0 by discriminate.
  assert ((3 : Z) <> r1) as Hb1 by discriminate.
  exact (her2k_scaling_diagonal RowMajor Lower NoTrans 2 1 [] 1 [] 1 3
           [Cplx 5 1; zr 6; zr 7; Cplx 8 2] 2 [zr 15; zr 18; zr 7; zr 24]
           eq_refl Hholds Hb0 Hb1 1%nat (le_n 2)).
Defined.

Lemma her2k_colmajor_as_rowmajor_witness :
  her2k ColMajor Upper NoTrans 2 1 (Cplx 1 2) [Cplx 1 1; zr 3] 2
    [Cplx 0 1; Cplx 1 (-1)] 2 3 [Cplx 5 1; zr 6; zr 7; zr 8] 2
  = her2k RowMajor Lower ConjTrans 2 1 (Cplx 1 (-2)) [Cplx 1 1; zr 3] 2
      [Cplx 0 1; Cplx 1 (-1)] 2 3 [Cplx 5 1; zr 6; zr 7; zr 8] 2.
Proof.
  exact (proj1 (her2k_colmajor_as_rowmajor Upper 2 1 (Cplx 1 2)
                  [Cplx 1 1; zr 3] 2 [Cplx 0 1; Cplx 1 (-1)] 2 3
                  [Cplx 5 1; zr 6; zr 7; zr 8] 2)).
Defined.

Lemma her2k_writes_within_witness :
  exists C',
    her2k ColMajor Upper NoTrans 2 1 (Cplx 1 2) [Cplx 1 1; zr 3] 2
      [Cplx 0 1; Cplx 1 (-1)] 2 3
      [Cplx 5 1; zr 6; zr 40; zr 7; zr 8; zr 41] 3 = Some C'
    /\ C' !! 2%nat = Some (zr 40).
Proof.
  eexists. split; [reflexivity|].
  apply (her2k_writes_within ColMajor Upper NoTrans 2 1 (Cplx 1 2)
           [Cplx 1 1; zr 3] 2 [Cplx 0 1; Cplx 1 (-1)] 2 3
           [Cplx 5 1; zr 6; zr 40; zr 7; zr 8; zr 41] 3 _ eq_refl 2%nat).
  intros i j Hi Hj. lia.
Defined.

Lemma her2k_reads_within_witness :
  her2k ColMajor Upper NoTrans 2 1 (Cplx 1 2) [Cplx 1 1; zr 3; zr 9] 3
    [Cplx 0 1; Cplx 1 (-1)] 2 3 [Cplx 5 1; zr 6; zr 7; zr 8] 2
  = her2k ColMajor Upper NoTrans 2 1 (Cplx 1 2) [Cplx 1 1; zr 3; zr 77; zr 78] 3
      [Cplx 0 1; Cplx 1 (-1); zr 5] 2 3 [Cplx 5 1; zr 6; zr 7; zr 8] 2.
Proof.
  apply (her2k_reads_within ColMajor Upper NoTrans 2 1 (Cplx 1 2)
           [Cplx 1 1; zr 3; zr 9] [Cplx 1 1; zr 3; zr 77; zr 78] 3
           [Cplx 0 1; Cplx 1 (-1)] [Cplx 0 1; Cplx 1 (-1); zr 5] 2 3
           [Cplx 5 1; zr 6; zr 7; zr 8] 2).
  - intros i j Hi Hj. simpl in Hi, Hj.
    assert (j = 0)%nat as -> by lia.
    assert (i = 0 \/ i = 1)%nat as [-> | ->] by lia; reflexivity.
  - intros i j Hi Hj. simpl in Hi, Hj.
    assert (j = 0)%nat as -> by lia.
    assert (i = 0 \/ i = 1)%nat as [-> | ->] by lia; reflexivity.
Defined.

Lemma her2k_scaling_offdiagonal_witness :
  at_ [zr 15; zr 18; zr 7; zr 24] 2 1 0 = zr 18.
Proof.
  assert (holds [Cplx 5 1; zr 6; zr 7; Cplx 8 2] 2 2) as Hholds
    by (unfold holds; simpl; lia).
  assert ((3 : Z) <> r0) as Hb0 by discriminate.
  assert ((3 : Z) <> r1) as Hb1 by discriminate.
  exact (her2k_scaling_offdiagonal RowMajor Lower NoTrans 2 1 [] 1 [] 1 3
           [Cplx 5 1; zr 6; zr 7; Cplx 8 2] 2 [zr 15; zr 18; zr 7; zr 24]
           eq_refl Hholds Hb0 Hb1 1%nat 0%nat (le_n 2) (le_S 1 1 (le_n 1))
           ltac:(discriminate)).
Defined.

Lemma her2k_zero_fill_entries_witness :
  at_ [zr 0; zr 6; zr 0; zr 0] 2 0 1 = zero
  /\ at_ [zr 0; zr 6; zr 0; zr 0] 2 1 0 = zr 6.
Proof.
  assert (holds [zr 5; zr 6; zr 7; zr 8] 2 2) as Hholds
    by (unfold holds; simpl; lia).
  split.
  - exact (her2k_zero_fill_entries ColMajor Lower NoTrans 2 1 [zr 0; zr 0] 2
             [zr 0; zr 0] 2 [zr 5; zr 6; zr 7; zr 8] 2 [zr 0; zr 6; zr 0; zr 0]
             eq_refl Hholds 0%nat 1%nat (le_S 1 1 (le_n 1)) (le_n 2)).
  - exact (her2k_zero_fill_entries ColMajor Lower NoTrans 2 1 [zr 0; zr 0] 2
             [zr 0; zr 0] 2 [zr 5; zr 6; zr 7; zr 8] 2 [zr 0; zr 6; zr 0; zr 0]
             eq_refl Hholds 1%nat 0%nat (le_n 2) (le_S 1 1 (le_n 1))).
Defined.
End OnIntegers.

(** *** Runs on binary64 *)

(** C6, at binary64.  For the call n = 2, k = 1, column-major, Upper,
    NoTrans, alpha = 1, beta = 0, A = [1; 0], B = [0; 1]: when C holds
    finite numbers the call leaves C(0,0) = 0, C(0,1) = 1, C(1,1) = 0 and
    C(1,0) as it was; when C holds C(0,0) = NaN and C(0,1) = infinity it
    leaves C(0,0) = NaN and C(0,1) = NaN, since lines 219-221 multiply
    what C held by beta = 0 where lines 166-184 assign zero. *)
Theorem her2k_scenario_unset_C :
  her2k ColMajor Upper NoTrans 2 1 (fr 1) [fr 1; fr 0] 2 [fr 0; fr 1] 2
    (float_lit 0) [fr 5; fr 6; fr 7; fr 8] 2
    = Some [fr 0; fr 6; fr 1; fr 0]
  /\ her2k ColMajor Upper NoTrans 2 1 (fr 1) [fr 1; fr 0] 2 [fr 0; fr 1] 2
    (float_lit 0)
    [Cplx PrimFloat.nan PrimFloat.zero; fr 6;
     Cplx PrimFloat.infinity PrimFloat.zero; Cplx (float_lit 8) (float_lit 2)] 2
    = Some [Cplx PrimFloat.nan PrimFloat.zero; fr 6;
            Cplx PrimFloat.nan PrimFloat.zero; fr 0].
Proof. split; vm_compute; reflexivity. Qed.
End Her2kFacts.

(** ** gelqf *)
Module GelqfFacts.
Import Gelqf.

Lemma ceil_div_zero nb : 1 <= nb -> ceil_div 0 nb = 0.
Proof. intros Hnb. unfold ceil_div. apply Nat.div_small. lia. Qed.

Lemma ceil_div_step a nb :
  1 <= nb -> 1 <= a -> ceil_div a nb = S (ceil_div (a - nb) nb).
Proof.
  intros Hnb Ha. unfold ceil_div.
  destruct (le_lt_dec a nb) as [Hle|Hgt].
  - replace (a - nb) with 0 by lia. simpl.
    rewrite (Nat.div_small (nb - 1) nb) by lia.
    symmetry. apply (Nat.div_unique _ _ _ (a - 1)); lia.
  - replace (a + nb - 1) with ((a - nb + nb - 1) + 1 * nb) by lia.
    rewrite Nat.div_add by lia. lia.
Qed.

Section Blocked.
Context {matrix_t work_t : Type}.
Context `{MatrixOps matrix_t work_t} `{Reflectors matrix_t work_t}.

Local Abbreviation run := (Run matrix_t work_t).

Lemma panel_starts_app (cs ds : list Call) :
  panel_starts (cs ++ ds) = panel_starts cs ++ panel_starts ds.
Proof. unfold panel_starts. apply omap_app. Qed.

(** Every pass calls gelq2 once, on the panel that starts at [j]. *)
Lemma panel_starts_panel m n k nb j (r : run) :
  panel_starts (calls (panel m n k nb j r)) = panel_starts (calls r) ++ [j].
Proof.
  unfold panel. cbv zeta.
  destruct (j + Nat.min nb (k - j) <? k); simpl;
    rewrite ?panel_starts_app; simpl; rewrite ?app_nil_r, <- ?app_assoc;
    reflexivity.
Qed.

(** With nb >= 1 the loop leaves after ceil((k - j) / nb) passes, at the
    offsets j, j + nb, j + 2 nb, ... *)
Lemma panel_loop_exits m n k nb :
  1 <= nb ->
  forall fuel j (r : run),
    ceil_div (k - j) nb <= fuel ->
    exists r',
      panel_loop m n k nb fuel j r = Exited r' /\
      panel_starts (calls r')
        = panel_starts (calls r)
            ++ map (fun i => j + i * nb) (seq 0 (ceil_div (k - j) nb)).
Proof.
  intros Hnb fuel. induction fuel as [|fuel IH]; intros j r Hfuel.
  - destruct (Nat.ltb_spec j k) as [Hlt|Hge].
    + rewrite ceil_div_step in Hfuel by lia. lia.
    + simpl. destruct (Nat.ltb_spec j k); [lia|].
      exists r. split; [reflexivity|].
      replace (k - j) with 0 by lia. rewrite ceil_div_zero by lia.
      simpl. rewrite app_nil_r. reflexivity.
  - simpl. destruct (Nat.ltb_spec j k) as [Hlt|Hge].
    + rewrite ceil_div_step in Hfuel |- * by lia.
      replace (k - j - nb) with (k - (j + nb)) in Hfuel |- * by lia.
      destruct (IH (j + nb) (panel m n k nb j r)) as (r' & Hrun & Hstarts); [lia|].
      exists r'. split; [exact Hrun|].
      rewrite Hstarts, panel_starts_panel, <- app_assoc. f_equal.
      simpl. f_equal; [lia|].
      rewrite <- seq_shift, map_map. apply map_ext. intros i. lia.
    + exists r. split; [reflexivity|].
      replace (k - j) with 0 by lia. rewrite ceil_div_zero by lia.
      simpl. rewrite app_nil_r. reflexivity.
Qed.

(** ... and not before. *)
Lemma panel_loop_running m n k nb :
  1 <= nb ->
  forall fuel j (r : run),
    fuel < ceil_div (k - j) nb ->
    exists j' r', panel_loop m n k nb fuel j r = Running j' r'.
Proof.
  intros Hnb fuel. induction fuel as [|fuel IH]; intros j r Hfuel.
  - simpl. destruct (Nat.ltb_spec j k) as [Hlt|Hge].
    + exists j, r. reflexivity.
    + replace (k - j) with 0 in Hfuel by lia.
      rewrite ceil_div_zero in Hfuel by lia. lia.
  - simpl. destruct (Nat.ltb_spec j k) as [Hlt|Hge].
    + apply IH. rewrite ceil_div_step in Hfuel by lia.
      replace (k - (j + nb)) with (k - j - nb) by lia. lia.
    + replace (k - j) with 0 in Hfuel by lia.
      rewrite ceil_div_zero in Hfuel by lia. lia.
Qed.

(** With nb = 0 and k > 0 every pass starts at offset 0 again. *)
Lemma panel_loop_stuck m n k :
  0 < k ->
  forall fuel (r : run),
    exists r',
      panel_loop m n k 0 fuel 0 r = Running 0 r' /\
      panel_starts (calls r') = panel_starts (calls r) ++ repeat 0 fuel.
Proof.
  intros Hk fuel. induction fuel as [|fuel IH]; intros r.
  - simpl. destruct (Nat.ltb_spec 0 k); [|lia].
    exists r. split; [reflexivity|]. simpl. rewrite app_nil_r. reflexivity.
  - simpl. destruct (Nat.ltb_spec 0 k); [|lia].
    destruct (IH (panel m n k 0 0 r)) as (r' & Hrun & Hstarts).
    exists r'. split; [exact Hrun|].
    rewrite Hstarts, panel_starts_panel, <- app_assoc. reflexivity.
Qed.

(** A call that passes the three checks is the panel loop from j = 0. *)
Lemma gelqf_accepted fuel A TT work nb :
  rejected A TT work nb = false ->
  gelqf fuel A TT work nb =
    match panel_loop (nrows A) (ncols A) (Nat.min (nrows A) (ncols A)) nb fuel 0
            (fresh A TT work) with
    | Exited r' => Some (0%Z, r')
    | Running _ _ => None
    end.
Proof.
  unfold rejected, gelqf. intros Hok.
  apply orb_false_iff in Hok as [Hok H3].
  apply orb_false_iff in Hok as [H1 H2].
  rewrite H1, H2, H3. reflexivity.
Qed.

(** *** The fixed-width loop *)

Lemma pow2_pos w : 0 < 2 ^ w.
Proof. induction w as [|w IH]; simpl; lia. Qed.

Lemma idx_wrap_small w x : x < 2 ^ w -> idx_wrap w x = x.
Proof. intros Hx. unfold idx_wrap. apply Nat.mod_small. exact Hx. Qed.

(** As long as the multiple of nb that ends the loop fits in [idx_t], no
    sum wraps and the loop is the loop over the natural numbers. *)
Lemma panel_loop_w_unbounded w m n k nb :
  1 <= nb ->
  forall fuel j (r : run),
    k <= j \/ j + ceil_div (k - j) nb * nb < 2 ^ w ->
    panel_loop_w w m n k nb fuel j r = panel_loop m n k nb fuel j r.
Proof.
  intros Hnb fuel. induction fuel as [|fuel IH]; intros j r Hfit; [reflexivity|].
  simpl. destruct (Nat.ltb_spec j k) as [Hlt|Hge]; [|reflexivity].
  destruct Hfit as [Hfit|Hfit]; [lia|].
  rewrite ceil_div_step in Hfit by lia.
  replace (k - j - nb) with (k - (j + nb)) in Hfit by lia.
  rewrite idx_wrap_small by (simpl in Hfit; lia).
  apply IH. right. simpl in Hfit. lia.
Qed.

Lemma panel_loop_w_zero w m n k :
  forall fuel (r : run),
    panel_loop_w w m n k 0 fuel 0 r = panel_loop m n k 0 fuel 0 r.
Proof.
  intros fuel. induction fuel as [|fuel IH]; intros r; [reflexivity|].
  simpl. destruct (0 <? k); [|reflexivity].
  rewrite idx_wrap_small by apply pow2_pos. apply IH.
Qed.

Lemma gelqf_w_unbounded w fuel A TT work nb :
  ceil_div (Nat.min (nrows A) (ncols A)) nb * nb < 2 ^ w ->
  gelqf_w w fuel A TT work nb = gelqf fuel A TT work nb.
Proof.
  intros Hfit. unfold gelqf_w, gelqf.
  destruct (Nat.eq_dec nb 0) as [->|Hnb].
  - rewrite panel_loop_w_zero. reflexivity.
  - rewrite panel_loop_w_unbounded; [reflexivity | lia |].
    right. replace (Nat.min (nrows A) (ncols A) - 0)
      with (Nat.min (nrows A) (ncols A)) by lia. simpl. exact Hfit.
Qed.

Lemma gelqf_w_accepted w fuel A TT work nb :
  rejected A TT work nb = false ->
  gelqf_w w fuel A TT work nb =
    match panel_loop_w w (nrows A) (ncols A) (Nat.min (nrows A) (ncols A)) nb
            fuel 0 (fresh A TT work) with
    | Exited r' => Some (0%Z, r')
    | Running _ _ => None
    end.
Proof.
  unfold rejected, gelqf_w. intros Hok.
  apply orb_false_iff in Hok as [Hok H3].
  apply orb_false_iff in Hok as [H1 H2].
  rewrite H1, H2, H3. reflexivity.
Qed.

(** When that multiple does not fit, the sum of the last pass wraps to an
    offset below k: after the ceil((k - j) / nb) passes that would end
    the loop, it is still running. *)
Lemma panel_loop_w_wraps w m n k nb :
  1 <= nb -> nb < 2 ^ w -> k < 2 ^ w ->
  forall fuel j (r : run),
    j < k -> fuel = ceil_div (k - j) nb ->
    2 ^ w <= j + fuel * nb ->
    exists j' r', panel_loop_w w m n k nb fuel j r = Running j' r'.
Proof.
  intros Hnb Hnbw Hkw fuel. induction fuel as [|fuel IH]; intros j r Hj Hfuel Hwrap.
  - simpl in Hwrap. lia.
  - simpl. destruct (Nat.ltb_spec j k) as [_|]; [|lia].
    rewrite ceil_div_step in Hfuel by lia. injection Hfuel as Hfuel.
    replace (k - j - nb) with (k - (j + nb)) in Hfuel by lia.
    destruct (Nat.ltb_spec (j + nb) k) as [Hmore|Hlast].
    + rewrite idx_wrap_small by lia.
      apply IH; [exact Hmore | exact Hfuel | simpl in Hwrap; lia].
    + replace (k - (j + nb)) with 0 in Hfuel by lia.
      rewrite ceil_div_zero in Hfuel by lia. subst fuel. simpl in Hwrap |- *.
      assert (idx_wrap w (j + nb) = j + nb - 2 ^ w) as ->.
      { unfold idx_wrap. symmetry.
        apply (Nat.mod_unique _ _ 1); lia. }
      destruct (Nat.ltb_spec (j + nb - 2 ^ w) k); [|lia].
      eexists. eexists. reflexivity.
Qed.

(** An index type in which nb + nb wraps to 0, with nb < k: the loop goes
    0, nb, 0, nb, ... and never ends. *)
Lemma panel_loop_w_cycle w m n k nb :
  nb < k -> idx_wrap w nb = nb -> idx_wrap w (nb + nb) = 0 ->
  forall fuel (r : run),
    (exists j' r', panel_loop_w w m n k nb fuel 0 r = Running j' r') /\
    (exists j' r', panel_loop_w w m n k nb fuel nb r = Running j' r').
Proof.
  intros Hnbk Hnb Hwrap fuel. induction fuel as [|fuel IH]; intros r.
  - simpl. destruct (Nat.ltb_spec 0 k); [|lia].
    destruct (Nat.ltb_spec nb k); [|lia].
    split; eexists; eexists; reflexivity.
  - simpl. destruct (Nat.ltb_spec 0 k); [|lia].
    destruct (Nat.ltb_spec nb k); [|lia].
    rewrite Hnb, Hwrap. split.
    + apply (IH (panel m n k nb 0 r)).
    + apply (IH (panel m n k nb nb r)).
Qed.

(** C7: when the checks pass and nb >= k = min(m, n) > 0, the call returns
    0 after exactly one pass of the panel loop (no fuel: no return; any
    positive fuel: the same return).  That pass has ib = k: its one
    primitive call is gelq2 on A[0:k, 0:n] with the diagonal of
    TT[0:k, 0:k]; larft and larfb are not called. *)
Theorem gelqf_single_panel :
  forall A TT work nb fuel,
    let n := ncols A in
    let k := Nat.min (nrows A) (ncols A) in
    let A11 := slice OfA (0, k) (0, n) in
    let tauw1 := diag (slice OfTT (0, k) (0, k)) in
    rejected A TT work nb = false ->
    0 < k -> k <= nb ->
    gelqf 0 A TT work nb = None /\
    gelqf (S fuel) A TT work nb =
      Some (0%Z, {| store := gelq2 A11 tauw1 (store (fresh A TT work));
                    calls := [Call_gelq2 A11 tauw1] |}).
Proof.
  intros A TT work nb fuel n k A11 tauw1 Hok Hk Hnb.
  rewrite !gelqf_accepted by exact Hok. fold k. simpl panel_loop.
  destruct (Nat.ltb_spec 0 k) as [_|]; [|lia].
  split; [reflexivity|].
  assert (panel (nrows A) (ncols A) k nb 0 (fresh A TT work)
          = {| store := gelq2 A11 tauw1 (store (fresh A TT work));
               calls := [Call_gelq2 A11 tauw1] |}) as ->.
  { unfold panel. cbv zeta.
    replace (Nat.min nb (k - 0)) with k by lia. simpl.
    destruct (Nat.ltb_spec k k); [lia|]. reflexivity. }
  destruct fuel; simpl; destruct (Nat.ltb_spec nb k); try lia; reflexivity.
Qed.


(** C9, as the code has it, with a w-bit idx_t.  When the checks pass,
    nb >= 1 and ceil(k / nb) nb fits in idx_t, the panel loop makes exactly
    ceil(k / nb) passes, at j = 0, nb, 2 nb, ..., and the call returns 0:
    with that much fuel or more it returns, with less it has not.  When
    nb = 0 and k > 0 the call never returns: however many passes are
    allowed, the loop is still running at j = 0, every pass having started
    there.  When nb >= 1 and ceil(k / nb) nb does not fit (k and nb
    fitting), the last sum wraps below k and the call has not returned
    after ceil(k / nb) passes. *)
Theorem gelqf_panel_count :
  forall w A TT work nb,
    let k := Nat.min (nrows A) (ncols A) in
    rejected A TT work nb = false ->
    (1 <= nb -> ceil_div k nb * nb < 2 ^ w ->
       (forall fuel, ceil_div k nb <= fuel ->
          exists r, gelqf_w w fuel A TT work nb = Some (0%Z, r) /\
                    panel_starts (calls r)
                      = map (fun i => i * nb) (seq 0 (ceil_div k nb)))
       /\ (forall fuel, fuel < ceil_div k nb ->
             gelqf_w w fuel A TT work nb = None))
    /\ (nb = 0 -> 0 < k ->
        forall fuel,
          gelqf_w w fuel A TT work nb = None /\
          exists r,
            panel_loop_w w (nrows A) (ncols A) k nb fuel 0 (fresh A TT work)
              = Running 0 r /\
            panel_starts (calls r) = repeat 0 fuel)
    /\ (1 <= nb -> nb < 2 ^ w -> k < 2 ^ w -> 2 ^ w <= ceil_div k nb * nb ->
        gelqf_w w (ceil_div k nb) A TT work nb = None).
Proof.
  intros w A TT work nb k Hok. split; [|split].
  - intros Hnb Hfit. split.
    + intros fuel Hfuel.
      destruct (panel_loop_exits (nrows A) (ncols A) k nb Hnb fuel 0
                  (fresh A TT work)) as (r' & Hrun & Hstarts).
      { replace (k - 0) with k by lia. exact Hfuel. }
      exists r'. rewrite gelqf_w_unbounded by exact Hfit.
      rewrite gelqf_accepted by exact Hok. fold k. rewrite Hrun.
      split; [reflexivity|].
      rewrite Hstarts. replace (k - 0) with k by lia. reflexivity.
    + intros fuel Hfuel.
      destruct (panel_loop_running (nrows A) (ncols A) k nb Hnb fuel 0
                  (fresh A TT work)) as (j' & r' & Hrun).
      { replace (k - 0) with k by lia. exact Hfuel. }
      rewrite gelqf_w_unbounded by exact Hfit.
      rewrite gelqf_accepted by exact Hok. fold k. rewrite Hrun. reflexivity.
  - intros -> Hk fuel.
    destruct (panel_loop_stuck (nrows A) (ncols A) k Hk fuel (fresh A TT work))
      as (r' & Hrun & Hstarts).
    split.
    + rewrite gelqf_w_accepted by exact Hok. fold k.
      rewrite panel_loop_w_zero, Hrun. reflexivity.
    + exists r'. rewrite panel_loop_w_zero. split; [exact Hrun | exact Hstarts].
  - intros Hnb Hnbw Hkw Hwrap.
    assert (0 < k) as Hk.
    { destruct (Nat.eq_dec k 0) as [E|]; [|lia].
      rewrite E, ceil_div_zero in Hwrap by exact Hnb.
      pose proof (pow2_pos w). simpl in Hwrap. lia. }
    destruct (panel_loop_w_wraps w (nrows A) (ncols A) k nb Hnb Hnbw Hkw
                (ceil_div k nb) 0 (fresh A TT work) Hk)
      as (j' & r' & Hrun).
    { replace (k - 0) with k by lia. reflexivity. }
    { simpl. exact Hwrap. }
    rewrite gelqf_w_accepted by exact Hok. fold k. rewrite Hrun. reflexivity.
Qed.

(** X13: an empty active region: when the checks pass and min(m, n) = 0,
    the call returns 0 at once, with the storage as given and no primitive
    called, for every nb (0 included). *)
Theorem gelqf_empty :
  forall A TT work nb fuel,
    rejected A TT work nb = false ->
    Nat.min (nrows A) (ncols A) = 0 ->
    gelqf fuel A TT work nb = Some (0%Z, fresh A TT work).
Proof.
  intros A TT work nb fuel Hok Hk.
  rewrite gelqf_accepted by exact Hok. rewrite Hk.
  destruct fuel; reflexivity.
Qed.

Lemma panel_calls_within m n k nb mT nT j (r : run) :
  k <= m -> k <= n -> m <= mT -> nb <= nT -> j < k ->
  calls_within m n mT nT (calls r) ->
  calls_within m n mT nT (calls (panel m n k nb j r)).
Proof.
  intros Hkm Hkn HmT HnT Hj Hr. unfold panel, calls_within in *. cbv zeta.
  destruct (j + Nat.min nb (k - j) <? k); simpl;
    repeat (apply Forall_app; split); try exact Hr;
    repeat constructor; simpl; lia.
Qed.

Lemma panel_loop_calls_within m n k nb mT nT :
  k <= m -> k <= n -> m <= mT -> nb <= nT ->
  forall fuel j (r : run),
    calls_within m n mT nT (calls r) ->
    match panel_loop m n k nb fuel j r with
    | Exited r' => calls_within m n mT nT (calls r')
    | Running _ r' => calls_within m n mT nT (calls r')
    end.
Proof.
  intros Hkm Hkn HmT HnT fuel.
  induction fuel as [|fuel IH]; intros j r Hr; simpl;
    destruct (Nat.ltb_spec j k) as [Hlt|Hge]; try exact Hr.
  apply IH. apply panel_calls_within; assumption.
Qed.

(** X14: every view handed to gelq2, larft or larfb lies within the matrix
    it is taken from: its row and column ranges are well formed and end
    within the extents of A, respectively of TT.  This holds of whatever
    call returns. *)
Theorem gelqf_views_within :
  forall A TT work nb fuel code r,
    gelqf fuel A TT work nb = Some (code, r) ->
    calls_within (nrows A) (ncols A) (nrows TT) (ncols TT) (calls r).
Proof.
  intros A TT work nb fuel code r Hret.
  destruct (rejected A TT work nb) eqn:Hrej.
  - assert (r = fresh A TT work) as ->; [|constructor].
    unfold rejected in Hrej. unfold gelqf in Hret.
    destruct (write_denied A); simpl in Hret; [congruence|].
    destruct ((nrows TT <? nrows A) || (ncols TT <? nb)); simpl in Hret; [congruence|].
    destruct (size work <? nrows A); simpl in Hret; [congruence | discriminate Hrej].
  - rewrite gelqf_accepted in Hret by exact Hrej.
    unfold rejected in Hrej.
    apply orb_false_iff in Hrej as [Hrej _].
    apply orb_false_iff in Hrej as [_ Hrej].
    apply orb_false_iff in Hrej as [Hrows Hcols].
    apply Nat.ltb_ge in Hrows, Hcols.
    pose proof (panel_loop_calls_within (nrows A) (ncols A)
                  (Nat.min (nrows A) (ncols A)) nb (nrows TT) (ncols TT)
                  ltac:(lia) ltac:(lia) Hrows Hcols fuel 0 (fresh A TT work)
                  ltac:(constructor)) as Hloop.
    destruct (panel_loop _ _ _ _ _ _ _); [|discriminate Hret].
    injection Hret as _ <-. exact Hloop.
Qed.

Lemma ceil_div_pos a nb : 1 <= nb -> 1 <= a -> 1 <= ceil_div a nb.
Proof. intros Hnb Ha. rewrite ceil_div_step by assumption. lia. Qed.

(** A pass is followed by larft and larfb exactly when rows remain. *)
Lemma panel_prims m n k nb j (r : run) :
  1 <= nb -> j < k ->
  map call_prim (calls (panel m n k nb j r))
    = map call_prim (calls r)
        ++ (if j + nb <? k then [Gelq2; Larft; Larfb] else [Gelq2]).
Proof.
  intros Hnb Hj. unfold panel. cbv zeta.
  destruct (Nat.ltb_spec (j + Nat.min nb (k - j)) k),
           (Nat.ltb_spec (j + nb) k); try lia; simpl;
    rewrite ?map_app, <- ?app_assoc; reflexivity.
Qed.

Lemma panel_loop_prims m n k nb :
  1 <= nb ->
  forall fuel j (r : run),
    j < k -> ceil_div (k - j) nb <= fuel ->
    exists r',
      panel_loop m n k nb fuel j r = Exited r' /\
      map call_prim (calls r')
        = map call_prim (calls r)
            ++ concat (repeat [Gelq2; Larft; Larfb] (ceil_div (k - j) nb - 1))
            ++ [Gelq2].
Proof.
  intros Hnb fuel. induction fuel as [|fuel IH]; intros j r Hj Hfuel.
  - pose proof (ceil_div_pos (k - j) nb Hnb ltac:(lia)). lia.
  - simpl. destruct (Nat.ltb_spec j k) as [_|]; [|lia].
    rewrite ceil_div_step in Hfuel |- * by lia.
    replace (k - j - nb) with (k - (j + nb)) in Hfuel |- * by lia.
    destruct (Nat.ltb_spec (j + nb) k) as [Hmore|Hlast].
    + destruct (IH (j + nb) (panel m n k nb j r) Hmore ltac:(lia))
        as (r' & Hrun & Hprims).
      exists r'. split; [exact Hrun|].
      rewrite Hprims, panel_prims by assumption.
      destruct (Nat.ltb_spec (j + nb) k); [|lia].
      pose proof (ceil_div_pos (k - (j + nb)) nb Hnb ltac:(lia)) as Hpos.
      replace (S (ceil_div (k - (j + nb)) nb) - 1)
        with (S (ceil_div (k - (j + nb)) nb - 1)) by lia.
      simpl. rewrite <- !app_assoc. reflexivity.
    + exists (panel m n k nb j r). split.
      * destruct fuel; simpl; destruct (Nat.ltb_spec (j + nb) k); try lia; reflexivity.
      * rewrite panel_prims by assumption.
        destruct (Nat.ltb_spec (j + nb) k); [lia|].
        replace (k - (j + nb)) with 0 by lia. rewrite ceil_div_zero by lia.
        reflexivity.
Qed.

(** A call that returns 0 has made all its passes. *)
Lemma gelqf_returned fuel A TT work nb r :
  rejected A TT work nb = false ->
  1 <= nb ->
  gelqf fuel A TT work nb = Some (0%Z, r) ->
  ceil_div (Nat.min (nrows A) (ncols A)) nb <= fuel /\
  panel_loop (nrows A) (ncols A) (Nat.min (nrows A) (ncols A)) nb fuel 0
    (fresh A TT work) = Exited r.
Proof.
  intros Hok Hnb Hret. rewrite gelqf_accepted in Hret by exact Hok.
  split.
  - destruct (le_lt_dec (ceil_div (Nat.min (nrows A) (ncols A)) nb) fuel)
      as [Hle|Hlt]; [exact Hle|].
    destruct (panel_loop_running (nrows A) (ncols A) (Nat.min (nrows A) (ncols A))
                nb Hnb fuel 0 (fresh A TT work)) as (j' & r' & Hrun).
    { replace (Nat.min (nrows A) (ncols A) - 0)
        with (Nat.min (nrows A) (ncols A)) by lia. exact Hlt. }
    rewrite Hrun in Hret. discriminate Hret.
  - destruct (panel_loop _ _ _ _ _ _ _); [|discriminate Hret].
    injection Hret as <-. reflexivity.
Qed.

(** X15: the order of the primitive calls, with a w-bit idx_t.  When the
    checks pass, nb >= 1, k = min(m, n) > 0 and ceil(k / nb) nb fits in
    idx_t, a call that returns has called gelq2, larft, larfb in turn for
    each of the first ceil(k / nb) - 1 panels, and gelq2 alone for the
    last: the block reflector is formed and applied for every panel but the
    one that reaches row k. *)
Theorem gelqf_call_order :
  forall w A TT work nb fuel r,
    let k := Nat.min (nrows A) (ncols A) in
    rejected A TT work nb = false ->
    1 <= nb -> 0 < k ->
    ceil_div k nb * nb < 2 ^ w ->
    gelqf_w w fuel A TT work nb = Some (0%Z, r) ->
    map call_prim (calls r)
      = concat (repeat [Gelq2; Larft; Larfb] (ceil_div k nb - 1)) ++ [Gelq2].
Proof.
  intros w A TT work nb fuel r k Hok Hnb Hk Hfit Hret.
  rewrite gelqf_w_unbounded in Hret by exact Hfit.
  destruct (gelqf_returned fuel A TT work nb r Hok Hnb Hret) as [Hfuel Hrun].
  fold k in Hfuel, Hrun.
  destruct (panel_loop_prims (nrows A) (ncols A) k nb Hnb fuel 0 (fresh A TT work)
              Hk) as (r' & Hrun' & Hprims).
  { replace (k - 0) with k by lia. exact Hfuel. }
  rewrite Hrun in Hrun'. injection Hrun' as <-.
  rewrite Hprims. replace (k - 0) with k by lia. reflexivity.
Qed.

Lemma gelq2_rows_app (cs ds : list Call) :
  gelq2_rows (cs ++ ds) = gelq2_rows cs ++ gelq2_rows ds.
Proof. unfold gelq2_rows. apply omap_app. Qed.

Lemma gelq2_rows_panel m n k nb j (r : run) :
  j < k ->
  gelq2_rows (calls (panel m n k nb j r))
    = gelq2_rows (calls r) ++ [(j, Nat.min (j + nb) k)].
Proof.
  intros Hj. unfold panel. cbv zeta.
  replace (Nat.min (j + nb) k) with (j + Nat.min nb (k - j)) by lia.
  destruct (j + Nat.min nb (k - j) <? k); simpl;
    rewrite ?gelq2_rows_app; simpl; rewrite ?app_nil_r, <- ?app_assoc;
    reflexivity.
Qed.

Lemma panel_loop_rows m n k nb :
  1 <= nb ->
  forall fuel j (r : run),
    ceil_div (k - j) nb <= fuel ->
    exists r',
      panel_loop m n k nb fuel j r = Exited r' /\
      gelq2_rows (calls r')
        = gelq2_rows (calls r)
            ++ map (fun i => (j + i * nb, Nat.min (j + (i + 1) * nb) k))
                 (seq 0 (ceil_div (k - j) nb)).
Proof.
  intros Hnb fuel. induction fuel as [|fuel IH]; intros j r Hfuel.
  - destruct (Nat.ltb_spec j k) as [Hlt|Hge].
    + rewrite ceil_div_step in Hfuel by lia. lia.
    + simpl. destruct (Nat.ltb_spec j k); [lia|].
      exists r. split; [reflexivity|].
      replace (k - j) with 0 by lia. rewrite ceil_div_zero by lia.
      simpl. rewrite app_nil_r. reflexivity.
  - simpl. destruct (Nat.ltb_spec j k) as [Hlt|Hge].
    + rewrite ceil_div_step in Hfuel |- * by lia.
      replace (k - j - nb) with (k - (j + nb)) in Hfuel |- * by lia.
      destruct (IH (j + nb) (panel m n k nb j r)) as (r' & Hrun & Hrows); [lia|].
      exists r'. split; [exact Hrun|].
      rewrite Hrows, gelq2_rows_panel, <- app_assoc by exact Hlt. f_equal.
      simpl. f_equal; [f_equal; lia|].
      rewrite <- seq_shift, map_map. apply map_ext. intros i. f_equal; lia.
    + exists r. split; [reflexivity|].
      replace (k - j) with 0 by lia. rewrite ceil_div_zero by lia.
      simpl. rewrite app_nil_r. reflexivity.
Qed.

(** X16: the panels handed to gelq2 tile the rows 0 .. k-1, with a w-bit
    idx_t.  When the checks pass, nb >= 1 and ceil(k / nb) nb fits in
    idx_t, a call that returns has factored, in this order, the row ranges
    [i nb, min((i+1) nb, k)) for i = 0 .. ceil(k / nb) - 1: each panel
    starts where the one before ended, none is higher than nb, and the last
    is clipped at k. *)
Theorem gelqf_panels_tile :
  forall w A TT work nb fuel r,
    let k := Nat.min (nrows A) (ncols A) in
    rejected A TT work nb = false ->
    1 <= nb ->
    ceil_div k nb * nb < 2 ^ w ->
    gelqf_w w fuel A TT work nb = Some (0%Z, r) ->
    gelq2_rows (calls r)
      = map (fun i => (i * nb, Nat.min ((i + 1) * nb) k)) (seq 0 (ceil_div k nb)).
Proof.
  intros w A TT work nb fuel r k Hok Hnb Hfit Hret.
  rewrite gelqf_w_unbounded in Hret by exact Hfit.
  destruct (gelqf_returned fuel A TT work nb r Hok Hnb Hret) as [Hfuel Hrun].
  fold k in Hfuel, Hrun.
  destruct (panel_loop_rows (nrows A) (ncols A) k nb Hnb fuel 0 (fresh A TT work))
    as (r' & Hrun' & Hrows).
  { replace (k - 0) with k by lia. exact Hfuel. }
  rewrite Hrun in Hrun'. injection Hrun' as <-.
  rewrite Hrows. replace (k - 0) with k by lia. reflexivity.
Qed.

Lemma call_from_mono j j' c : j <= j' -> call_from j' c -> call_from j c.
Proof.
  intros Hle Hc. unfold call_from in *.
  eapply Forall_impl; [exact Hc|]. simpl. intros v Hv. lia.
Qed.

(** The calls of the pass at offset j all work on the panel that starts at
    j, and none of their views reaches before j. *)
Lemma panel_new_calls m n k nb j (r : run) :
  exists cs,
    calls (panel m n k nb j r) = calls r ++ cs /\
    Forall (fun c => call_start c = j /\ call_from j c) cs.
Proof.
  unfold panel. cbv zeta.
  destruct (j + Nat.min nb (k - j) <? k); simpl.
  - eexists. split; [rewrite <- !app_assoc; simpl; reflexivity|].
    repeat constructor; simpl; lia.
  - eexists. split; [reflexivity|].
    repeat constructor; simpl; lia.
Qed.

Lemma never_back_app (l cs : list Call) j :
  never_back l ->
  Forall (fun c => call_start c <= j) l ->
  Forall (fun c => call_start c = j /\ call_from j c) cs ->
  never_back (l ++ cs) /\ Forall (fun c => call_start c <= j) (l ++ cs).
Proof.
  intros Hl Hstart Hcs. split.
  - intros i i' c c' Hle Hi Hi'.
    apply lookup_app_Some in Hi as [Hi | [Hi1 Hi2]];
      apply lookup_app_Some in Hi' as [Hi' | [Hi'1 Hi'2]].
    + exact (Hl i i' c c' Hle Hi Hi').
    + apply (call_from_mono _ j).
      * exact (proj1 (Forall_lookup _ _) Hstart i c Hi).
      * exact (proj2 (proj1 (Forall_lookup _ _) Hcs _ c' Hi'2)).
    + apply lookup_lt_Some in Hi'. lia.
    + destruct (proj1 (Forall_lookup _ _) Hcs _ c Hi2) as [-> _].
      exact (proj2 (proj1 (Forall_lookup _ _) Hcs _ c' Hi'2)).
  - apply Forall_app. split; [exact Hstart|].
    eapply Forall_impl; [exact Hcs|]. simpl. intros c [-> _]. lia.
Qed.

Lemma panel_loop_never_back m n k nb :
  forall fuel j (r : run),
    never_back (calls r) ->
    Forall (fun c => call_start c <= j) (calls r) ->
    match panel_loop m n k nb fuel j r with
    | Exited r' => never_back (calls r')
    | Running _ r' => never_back (calls r')
    end.
Proof.
  intros fuel. induction fuel as [|fuel IH]; intros j r Hr Hstart; simpl;
    destruct (Nat.ltb_spec j k) as [Hlt|Hge]; try exact Hr.
  destruct (panel_new_calls m n k nb j r) as (cs & Hcalls & Hcs).
  destruct (never_back_app (calls r) cs j Hr Hstart Hcs) as [Hnb' Hstart'].
  apply IH; rewrite Hcalls; [exact Hnb'|].
  eapply Forall_impl; [exact Hstart'|]. simpl. intros c Hc. lia.
Qed.

(** X17: the loop never goes back, with a w-bit idx_t in which
    ceil(k / nb) nb fits.  In the call log of a call that returns, once a
    primitive has been called on the panel that starts at row j, no later
    call is handed a view that reaches a row of A or of TT, or a column of
    A, before j: the rows and columns above and left of the current panel
    are final. *)
Theorem gelqf_never_back :
  forall w A TT work nb fuel code r,
    ceil_div (Nat.min (nrows A) (ncols A)) nb * nb < 2 ^ w ->
    gelqf_w w fuel A TT work nb = Some (code, r) ->
    never_back (calls r).
Proof.
  intros w A TT work nb fuel code r Hfit Hret.
  rewrite gelqf_w_unbounded in Hret by exact Hfit.
  assert (never_back (calls (fresh A TT work))) as Hfresh.
  { intros i i' c c' _ Hi. simpl in Hi. rewrite lookup_nil in Hi. discriminate Hi. }
  unfold gelqf in Hret.
  destruct (write_denied A); simpl in Hret; [injection Hret as _ <-; exact Hfresh|].
  destruct ((nrows TT <? nrows A) || (ncols TT <? nb)); simpl in Hret;
    [injection Hret as _ <-; exact Hfresh|].
  destruct (size work <? nrows A); simpl in Hret;
    [injection Hret as _ <-; exact Hfresh|].
  pose proof (panel_loop_never_back (nrows A) (ncols A)
                (Nat.min (nrows A) (ncols A)) nb fuel 0 (fresh A TT work)
                Hfresh ltac:(constructor)) as Hloop.
  destruct (panel_loop _ _ _ _ _ _ _); [|discriminate Hret].
  injection Hret as _ <-. exact Hloop.
Qed.

Lemma panel_larfb_below m n k nb j (r : run) :
  Forall larfb_below (calls r) ->
  Forall larfb_below (calls (panel m n k nb j r)).
Proof.
  intros Hr. unfold panel. cbv zeta.
  destruct (j + Nat.min nb (k - j) <? k); simpl;
    repeat (apply Forall_app; split); try exact Hr;
    repeat constructor; simpl; auto.
Qed.

Lemma panel_loop_larfb_below m n k nb :
  forall fuel j (r : run),
    Forall larfb_below (calls r) ->
    match panel_loop m n k nb fuel j r with
    | Exited r' => Forall larfb_below (calls r')
    | Running _ r' => Forall larfb_below (calls r')
    end.
Proof.
  intros fuel. induction fuel as [|fuel IH]; intros j r Hr; simpl;
    destruct (j <? k); try exact Hr.
  apply IH. apply panel_larfb_below. exact Hr.
Qed.

(** X18: every call of larfb, in whatever call returns, is given as its
    target the rows of A directly below the panel, in the panel's columns,
    and as its workspace the rows of TT directly below the panel's block
    TT1, in that block's columns: the block reflector is applied without
    writing over the reflectors or the triangular factor it is built
    from. *)
Theorem gelqf_larfb_below :
  forall A TT work nb fuel code r,
    gelqf fuel A TT work nb = Some (code, r) ->
    Forall larfb_below (calls r).
Proof.
  intros A TT work nb fuel code r Hret.
  unfold gelqf in Hret.
  destruct (write_denied A); simpl in Hret; [injection Hret as _ <-; constructor|].
  destruct ((nrows TT <? nrows A) || (ncols TT <? nb)); simpl in Hret;
    [injection Hret as _ <-; constructor|].
  destruct (size work <? nrows A); simpl in Hret;
    [injection Hret as _ <-; constructor|].
  pose proof (panel_loop_larfb_below (nrows A) (ncols A)
                (Nat.min (nrows A) (ncols A)) nb fuel 0 (fresh A TT work)
                ltac:(constructor)) as Hloop.
  destruct (panel_loop _ _ _ _ _ _ _); [|discriminate Hret].
  injection Hret as _ <-. exact Hloop.
Qed.

(** *** The fixed-width loop and the properties above

    What was shown of the loop over the natural numbers holds of the loop
    over a w-bit index: of every call for the properties of single passes,
    and when the one sum of the call fits for the single pass. *)

Lemma gelqf_w_empty w A TT work nb fuel :
  rejected A TT work nb = false ->
  Nat.min (nrows A) (ncols A) = 0 ->
  gelqf_w w fuel A TT work nb = Some (0%Z, fresh A TT work).
Proof.
  intros Hok Hk. rewrite gelqf_w_accepted by exact Hok. rewrite Hk.
  destruct fuel; reflexivity.
Qed.

Lemma gelqf_w_single_panel w A TT work nb fuel :
  rejected A TT work nb = false ->
  0 < Nat.min (nrows A) (ncols A) ->
  Nat.min (nrows A) (ncols A) <= nb ->
  nb < 2 ^ w ->
  gelqf_w w fuel A TT work nb = gelqf fuel A TT work nb.
Proof.
  intros Hok Hk Hnb Hfit. apply gelqf_w_unbounded.
  rewrite ceil_div_step by lia.
  replace (Nat.min (nrows A) (ncols A) - nb) with 0 by lia.
  rewrite ceil_div_zero by lia. simpl. lia.
Qed.

Lemma panel_loop_w_log_keeps (P : Call -> Prop) w m n k nb :
  (forall j (r : run), j < k ->
     Forall P (calls r) -> Forall P (calls (panel m n k nb j r))) ->
  forall fuel j (r : run),
    Forall P (calls r) ->
    match panel_loop_w w m n k nb fuel j r with
    | Exited r' => Forall P (calls r')
    | Running _ r' => Forall P (calls r')
    end.
Proof.
  intros Hpass fuel. induction fuel as [|fuel IH]; intros j r Hr; simpl;
    destruct (Nat.ltb_spec j k) as [Hlt|Hge]; try exact Hr.
  apply IH. apply Hpass; assumption.
Qed.

Lemma gelqf_w_log_keeps (P : Call -> Prop) w A TT work nb fuel code r :
  (forall j (r0 : run), j < Nat.min (nrows A) (ncols A) ->
     Forall P (calls r0) ->
     Forall P (calls (panel (nrows A) (ncols A) (Nat.min (nrows A) (ncols A))
                        nb j r0))) ->
  gelqf_w w fuel A TT work nb = Some (code, r) ->
  Forall P (calls r).
Proof.
  intros Hpass Hret. unfold gelqf_w in Hret.
  destruct (write_denied A); simpl in Hret; [injection Hret as _ <-; constructor|].
  destruct ((nrows TT <? nrows A) || (ncols TT <? nb)); simpl in Hret;
    [injection Hret as _ <-; constructor|].
  destruct (size work <? nrows A); simpl in Hret;
    [injection Hret as _ <-; constructor|].
  pose proof (panel_loop_w_log_keeps P w (nrows A) (ncols A)
                (Nat.min (nrows A) (ncols A)) nb Hpass fuel 0 (fresh A TT work)
                ltac:(constructor)) as Hloop.
  destruct (panel_loop_w _ _ _ _ _ _ _ _); [|discriminate Hret].
  injection Hret as _ <-. exact Hloop.
Qed.

Lemma gelqf_w_larfb_below w A TT work nb fuel code r :
  gelqf_w w fuel A TT work nb = Some (code, r) ->
  Forall larfb_below (calls r).
Proof.
  apply gelqf_w_log_keeps. intros j r0 _. apply panel_larfb_below.
Qed.

Lemma gelqf_w_views_within w A TT work nb fuel code r :
  gelqf_w w fuel A TT work nb = Some (code, r) ->
  calls_within (nrows A) (ncols A) (nrows TT) (ncols TT) (calls r).
Proof.
  intros Hret.
  destruct (rejected A TT work nb) eqn:Hrej.
  - assert (r = fresh A TT work) as ->; [|constructor].
    unfold rejected in Hrej. unfold gelqf_w in Hret.
    destruct (write_denied A); simpl in Hret; [congruence|].
    destruct ((nrows TT <? nrows A) || (ncols TT <? nb)); simpl in Hret; [congruence|].
    destruct (size work <? nrows A); simpl in Hret; [congruence | discriminate Hrej].
  - revert Hret. unfold calls_within. apply gelqf_w_log_keeps.
    unfold rejected in Hrej.
    apply orb_false_iff in Hrej as [Hrej _].
    apply orb_false_iff in Hrej as [_ Hrej].
    apply orb_false_iff in Hrej as [Hrows Hcols].
    apply Nat.ltb_ge in Hrows, Hcols.
    intros j r0 Hj Hr0.
    apply (panel_calls_within (nrows A) (ncols A) _ nb (nrows TT) (ncols TT));
      assumption || lia.
Qed.
End Blocked.

(** *** Runs on matrices known by their extents *)

Lemma gelqf_single_panel_witness :
  gelqf 0 (writable 3 5) (writable 3 4) 3 4 = None /\
  gelqf 1 (writable 3 5) (writable 3 4) 3 4 =
    Some (0%Z,
          {| store := {| st_A := writable 3 5; st_TT := writable 3 4; st_work := 3 |};
             calls := [Call_gelq2 (slice OfA (0, 3) (0, 5))
                         (diag (slice OfTT (0, 3) (0, 3)))] |}).
Proof.
  exact (gelqf_single_panel (writable 3 5) (writable 3 4) 3 4 0
           eq_refl ltac:(simpl; lia) ltac:(simpl; lia)).
Defined.



(** C9 fails as stated: with an 8-bit idx_t, a 129-by-129 writable A, a
    129-by-128 TT, a work vector of length 129 and nb = 128 pass the three
    checks with nb >= 1; the loop goes j = 0, 128, 0, 128, ... (128 + 128
    wraps to 0) and the call never returns. *)
Lemma gelqf_wrapping_block_never_returns :
  rejected (writable 129 129) (writable 129 128) 129 128 = false /\
  1 <= 128 /\
  forall fuel, gelqf_w 8 fuel (writable 129 129) (writable 129 128) 129 128 = None.
Proof.
  split; [reflexivity|]. split; [lia|]. intros fuel.
  rewrite gelqf_w_accepted by reflexivity.
  destruct (panel_loop_w_cycle 8 129 129 129 128 ltac:(lia) eq_refl eq_refl fuel
              (fresh (writable 129 129) (writable 129 128) 129))
    as [(j' & r' & Hrun) _].
  change (Nat.min (nrows (writable 129 129)) (ncols (writable 129 129))) with 129.
  change (nrows (writable 129 129)) with 129.
  change (ncols (writable 129 129)) with 129.
  rewrite Hrun. reflexivity.
Qed.

Lemma gelqf_panel_count_witness :
  exists r,
    gelqf_w 8 3 (writable 5 7) (writable 5 2) 5 2 = Some (0%Z, r) /\
    panel_starts (calls r) = [0; 2; 4].
Proof.
  exact (proj1 (proj1 (gelqf_panel_count 8 (writable 5 7) (writable 5 2) 5 2 eq_refl)
                  ltac:(lia) ltac:(vm_compute; lia)) 3 (le_n 3)).
Defined.

Lemma gelqf_empty_witness :
  gelqf 0 (writable 0 4) (writable 0 3) 0 0
    = Some (0%Z, fresh (writable 0 4) (writable 0 3) 0).
Proof.
  exact (gelqf_empty (writable 0 4) (writable 0 3) 0 0 0 eq_refl eq_refl).
Defined.

Lemma gelqf_views_within_witness :
  exists r,
    gelqf 3 (writable 5 7) (writable 5 2) 5 2 = Some (0%Z, r) /\
    calls_within 5 7 5 2 (calls r).
Proof.
  pose proof (gelqf_views_within (writable 5 7) (writable 5 2) 5 2 3 0%Z _ eq_refl)
    as Hwithin.
  eexists. split; [reflexivity | exact Hwithin].
Defined.

Lemma gelqf_call_order_witness :
  exists r,
    gelqf_w 8 3 (writable 5 7) (writable 5 2) 5 2 = Some (0%Z, r) /\
    map call_prim (calls r)
      = [Gelq2; Larft; Larfb; Gelq2; Larft; Larfb; Gelq2].
Proof.
  pose proof (gelqf_call_order 8 (writable 5 7) (writable 5 2) 5 2 3 _ eq_refl
                (le_S 1 1 (le_n 1)) ltac:(simpl; lia) ltac:(vm_compute; lia)
                eq_refl) as Horder.
  eexists. split; [reflexivity | exact Horder].
Defined.

Lemma gelqf_panels_tile_witness :
  exists r,
    gelqf_w 8 3 (writable 5 7) (writable 5 2) 5 2 = Some (0%Z, r) /\
    gelq2_rows (calls r) = [(0, 2); (2, 4); (4, 5)].
Proof.
  pose proof (gelqf_panels_tile 8 (writable 5 7) (writable 5 2) 5 2 3 _ eq_refl
                (le_S 1 1 (le_n 1)) ltac:(vm_compute; lia) eq_refl) as Htile.
  eexists. split; [reflexivity | exact Htile].
Defined.

Lemma gelqf_never_back_witness :
  exists r,
    gelqf_w 8 3 (writable 5 7) (writable 5 2) 5 2 = Some (0%Z, r) /\
    never_back (calls r).
Proof.
  assert (ceil_div (Nat.min (nrows (writable 5 7)) (ncols (writable 5 7))) 2 * 2
          < 2 ^ 8) as Hfit by (vm_compute; lia).
  pose proof (gelqf_never_back 8 (writable 5 7) (writable 5 2) 5 2 3 0%Z _
                Hfit eq_refl) as Hback.
  eexists. split; [reflexivity | exact Hback].
Defined.

Lemma gelqf_larfb_below_witness :
  exists r,
    gelqf 3 (writable 5 7) (writable 5 2) 5 2 = Some (0%Z, r) /\
    Forall larfb_below (calls r).
Proof.
  pose proof (gelqf_larfb_below (writable 5 7) (writable 5 2) 5 2 3 0%Z _ eq_refl)
    as Hbelow.
  eexists. split; [reflexivity | exact Hbelow].
Defined.
End GelqfFacts.
